(** * lnwire: the LocalNoncesData TLV value codec

    A shallow embedding of [lnwire/local_nonces.go]: the record length
    function of [Record], [encodeLocalNoncesData] and
    [decodeLocalNoncesData], together with the Go library operations they
    call ([binary.BigEndian], [bytes.Compare], [sort.Slice], [io.ReadFull],
    [io.Writer]), and the properties of the codec. *)

From Stdlib Require Import Strings.Byte NArith.
From stdpp Require Import gmap strings list fin_maps vector sorting.

Local Open Scope N_scope.

(** ** Bytes and fixed-size arrays *)

(** A Go [byte] is [Byte.byte]; its numeric value is [Byte.to_N]. *)

#[global] Instance byte_eq_dec : EqDecision byte := Byte.byte_eq_dec.

#[global] Program Instance byte_countable : Countable byte :=
  inj_countable Byte.to_N Byte.of_N _.
Next Obligation. intros b. apply Byte.of_to_N. Qed.

(** Go's conversion [byte(x)] of an unsigned integer keeps the low 8 bits. *)
Definition byte_of_N (x : N) : byte :=
  match Byte.of_N (x mod 256) with
  | Some b => b
  | None => x00
  end.

(** [var a [n]byte; copy(a[:], p)]: an array starts zeroed. *)
Fixpoint fill_array (n : nat) (p : list byte) : vec byte n :=
  match n with
  | O => [#]
  | S n' =>
      match p with
      | [] => x00 ::: fill_array n' []
      | b :: p' => b ::: fill_array n' p'
      end
  end.

(** Arrays of bytes as map keys. The library's instance for vectors is
    opaque; this one computes. *)
#[global] Program Instance array_countable n : Countable (vec byte n) | 0 :=
  inj_countable' vec_to_list (fill_array n) _.
Next Obligation.
  intros n a. induction a as [|b n a IH]; simpl; [done | by rewrite IH].
Qed.

(** [chainhash.HashSize] and [musig2.PubNonceSize]. *)
Definition HashSize : nat := 32.
Definition PubNonceSize : nat := 66.

(** [chainhash.Hash] is [[32]byte] and [Musig2Nonce] is [[66]byte]. *)
Abbreviation Hash := (vec byte HashSize).
Abbreviation Musig2Nonce := (vec byte PubNonceSize).

(** ** encoding/binary: [binary.BigEndian] on 16 bits *)

(** [PutUint16(b, v)]: [b[0] = byte(v >> 8); b[1] = byte(v)]. *)
Definition PutUint16 (v : N) : list byte :=
  [byte_of_N (N.shiftr v 8); byte_of_N v].

(** [Uint16(b)]: [uint16(b[1]) | uint16(b[0])<<8]. *)
Definition Uint16 (b0 b1 : byte) : N :=
  N.lor (Byte.to_N b1) (N.shiftl (Byte.to_N b0) 8).

(** The conversion [uint16(n)] of a Go [int] that is not negative. *)
Definition uint16 (n : N) : N := n mod 65536.

(** The conversion [uint64(n)]. *)
Definition uint64 (n : N) : N := n mod 18446744073709551616.

(** ** bytes.Compare *)

(** [bytes.Compare(a, b)] compares two byte slices lexicographically, the
    first byte being the most significant, and returns -1, 0 or +1. *)
Fixpoint bytes_Compare (a b : list byte) : Z :=
  match a, b with
  | [], [] => 0%Z
  | [], _ :: _ => (-1)%Z
  | _ :: _, [] => 1%Z
  | x :: a', y :: b' =>
      if Byte.to_N x <? Byte.to_N y then (-1)%Z
      else if Byte.to_N y <? Byte.to_N x then 1%Z
      else bytes_Compare a' b'
  end.

(** ** Errors *)

(** The errors the codec returns: the two [tlv] type errors (built by
    [tlv.NewTypeForEncodingErr] and [tlv.NewTypeForDecodingErr], which
    record the type name, the record length and the expected length),
    [io.EOF], [io.ErrUnexpectedEOF], and whatever error a sink reports. *)
Inductive error : Type :=
  | ErrTypeForEncoding (typeName : string)
  | ErrTypeForDecoding (typeName : string) (recordLen expected : N)
  | EOF
  | ErrUnexpectedEOF
  | ErrSink (msg : string).

Definition NewTypeForEncodingErr (typeName : string) : error :=
  ErrTypeForEncoding typeName.

Definition NewTypeForDecodingErr (typeName : string) (recordLen expected : N)
    : error :=
  ErrTypeForDecoding typeName recordLen expected.

(** ** Data model *)

(** [LocalNonceEntry] holds a single TXID -> Musig2Nonce mapping. *)
Record LocalNonceEntry : Type := {
  TXID : Hash;
  Nonce : Musig2Nonce
}.

(** [LocalNoncesData] holds the map of nonces; a Go map can be [nil],
    which is [None] here. *)
Record LocalNoncesData : Type := {
  NoncesMap : option (gmap Hash Musig2Nonce)
}.

(** [NewLocalNoncesData] creates a [LocalNoncesData] with an initialized
    map. *)
Definition NewLocalNoncesData : LocalNoncesData :=
  {| NoncesMap := Some ∅ |}.

(** [len(m)] of a Go map; the length of a nil map is 0. *)
Definition len (m : option (gmap Hash Musig2Nonce)) : nat :=
  match m with
  | Some m => size m
  | None => 0
  end.

(** The [val interface{}] argument of an encoder or decoder: a pointer to a
    [LocalNoncesData] or a value of some other type. *)
Inductive Value : Type :=
  | PtrLocalNoncesData (lnd : LocalNoncesData)
  | OtherValue.

(** A [range] loop over a Go map visits every entry once, in an order the
    language leaves unspecified: an iteration order is any function that
    lists the entries of a map. *)
Class MapRange : Type := {
  range : gmap Hash Musig2Nonce → list (Hash * Musig2Nonce);
  range_perm : ∀ m, range m ≡ₚ map_to_list m
}.

(** ** sort.Slice *)

(** [sort.Slice(s, less)] rearranges [s] into an order in which no element
    is [less] than one before it. Go's library algorithm is not part of this
    package; it is modelled by insertion with the same [less], and
    [sort_Slice_unique] below shows that for entries with distinct ids the
    result does not depend on the algorithm. *)
Fixpoint sort_insert {A} (less : A → A → bool) (x : A) (s : list A)
    : list A :=
  match s with
  | [] => [x]
  | y :: s' => if less x y then x :: s else y :: sort_insert less x s'
  end.

Definition sort_Slice {A} (less : A → A → bool) (s : list A) : list A :=
  foldr (sort_insert less) [] s.

(** The [less] function of the encoder:
    [bytes.Compare(sortedEntries[i].TXID[:], sortedEntries[j].TXID[:]) < 0]. *)
Definition entry_less (a b : LocalNonceEntry) : bool :=
  bool_decide
    (bytes_Compare (vec_to_list (TXID a)) (vec_to_list (TXID b)) < 0)%Z.

(** ** io.Writer *)

(** An [io.Writer]: [Write] consumes a byte slice and may report an error. *)
Class Writer (W : Type) : Type :=
  Write : W → list byte → W * option error.

(** [bytes.Buffer]: a write appends and never fails. *)
Definition Buffer : Type := list byte.

#[global] Instance Buffer_Writer : Writer Buffer :=
  λ b p, (b ++ p, None).

(** A sink with a fixed amount of room left, which rejects a write that does
    not fit. *)
Record LimitedSink : Type := {
  sink_bytes : list byte;
  sink_room : nat
}.

#[global] Instance LimitedSink_Writer : Writer LimitedSink :=
  λ s p,
    if decide (length p ≤ sink_room s)%nat
    then ({| sink_bytes := sink_bytes s ++ p;
             sink_room := sink_room s - length p |}, None)
    else (s, Some (ErrSink "short write")).

(** ** The record length function and the encoder *)

(** The length function of [Record]. *)
Definition RecordLength (lnd : LocalNoncesData) : N :=
  if decide (NoncesMap lnd = None ∨ len (NoncesMap lnd) = 0%nat) then 2
  else
    let numEntries := len (NoncesMap lnd) in
    uint64 (2 + N.of_nat numEntries * N.of_nat (HashSize + PubNonceSize)).

(** [LocalNonceEntry{TXID: txid, Nonce: nonce}] for one [txid, nonce] pair of
    the [range] loop. *)
Definition entry_of (kv : Hash * Musig2Nonce) : LocalNonceEntry :=
  {| TXID := kv.1; Nonce := kv.2 |}.

Section encoder.
Context {W : Type} `{!Writer W} {order : MapRange}.

(** The loop that writes the entries: TXID, then Nonce, stopping at the
    first error. *)
Fixpoint write_entries (w : W) (sortedEntries : list LocalNonceEntry)
    : W * option error :=
  match sortedEntries with
  | [] => (w, None)
  | entry :: rest =>
      match Write w (vec_to_list (TXID entry)) with
      | (w1, Some err) => (w1, Some err)
      | (w1, None) =>
          match Write w1 (vec_to_list (Nonce entry)) with
          | (w2, Some err) => (w2, Some err)
          | (w2, None) => write_entries w2 rest
          end
      end
  end.

(** The entries of the map in [range] order, sorted by TXID, and their
    number converted to [uint16]; both stay at their zero value when the
    map is nil or empty. *)
Definition sorted_entries (lnd : LocalNoncesData)
    : N * list LocalNonceEntry :=
  match NoncesMap lnd with
  | Some m =>
      if decide (0 < size m)%nat then
        let entries := entry_of <$> range m in
        let sortedEntries := sort_Slice entry_less entries in
        (uint16 (N.of_nat (length sortedEntries)), sortedEntries)
      else (0, [])
  | None => (0, [])
  end.

(** [encodeLocalNoncesData] implements the [tlv.Encoder]. *)
Definition encodeLocalNoncesData (w : W) (val : Value) : W * option error :=
  match val with
  | OtherValue => (w, Some (NewTypeForEncodingErr "*lnwire.LocalNoncesData"))
  | PtrLocalNoncesData lnd =>
      let '(numEntries, sortedEntries) := sorted_entries lnd in
      match Write w (PutUint16 numEntries) with
      | (w1, Some err) => (w1, Some err)
      | (w1, None) => write_entries w1 sortedEntries
      end
  end.
End encoder.

(** ** The decoder *)

(** The decoder reads from a byte source and writes through the pointer it
    was given: its state is the unread bytes of a [bytes.Reader] and the
    [LocalNoncesData] the pointer refers to. A step yields a value or an
    error, and the state it leaves behind either way. *)
Record DecState : Type := {
  reader : list byte;
  dest : LocalNoncesData
}.

Inductive result (A : Type) : Type :=
  | Ok (a : A)
  | Err (err : error).
Arguments Ok {A} a.
Arguments Err {A} err.

Definition Dec (A : Type) : Type := DecState → DecState * result A.

#[global] Instance Dec_ret : MRet Dec := λ A a s, (s, Ok a).

#[global] Instance Dec_bind : MBind Dec := λ A B k c s,
  match c s with
  | (s', Ok a) => k a s'
  | (s', Err err) => (s', Err err)
  end.

(** [return err]. *)
Definition fail {A} (err : error) : Dec A := λ s, (s, Err err).

(** [lnd.NoncesMap]. *)
Definition getNoncesMap : Dec (option (gmap Hash Musig2Nonce)) :=
  λ s, (s, Ok (NoncesMap (dest s))).

(** [lnd.NoncesMap = m]. *)
Definition setNoncesMap (m : option (gmap Hash Musig2Nonce)) : Dec unit :=
  λ s, ({| reader := reader s; dest := {| NoncesMap := m |} |}, Ok ()).

(** [lnd.NoncesMap[txid] = nonce]; the map is not nil where the decoder
    assigns to it (assigning to a nil map panics in Go, which the state left
    untouched stands for). *)
Definition assignNonce (txid : Hash) (nonce : Musig2Nonce) : Dec unit :=
  m ← getNoncesMap;
  match m with
  | Some m => setNoncesMap (Some (<[txid := nonce]> m))
  | None => mret ()
  end.

(** [io.ReadFull(r, buf)] with [len(buf) = n] on a [bytes.Reader]: exactly
    [n] bytes, or an error when the source holds fewer: [io.EOF] when it
    holds none, [io.ErrUnexpectedEOF] otherwise, the source being drained. *)
Definition ReadFull (n : nat) : Dec (vec byte n) := λ s,
  if decide (n ≤ length (reader s))%nat then
    ({| reader := drop n (reader s); dest := dest s |},
     Ok (fill_array n (take n (reader s))))
  else
    ({| reader := []; dest := dest s |},
     Err (match reader s with [] => EOF | _ :: _ => ErrUnexpectedEOF end)).

(** The loop [for i := uint16(0); i < numEntries; i++], as the number of
    iterations left. *)
Fixpoint read_entries (left : nat) : Dec unit :=
  match left with
  | O => mret ()
  | S left' =>
      txid ← ReadFull HashSize;
      nonce ← ReadFull PubNonceSize;
      assignNonce txid nonce;;
      read_entries left'
  end.

(** The body of [decodeLocalNoncesData] once the type assertion on [val]
    has succeeded. *)
Definition decode_into (recordLen : N) : Dec unit :=
  m ← getNoncesMap;
  (if decide (m = None) then setNoncesMap (Some ∅) else mret ());;
  if recordLen <? 2 then
    if recordLen =? 0 then
      m ← getNoncesMap;
      (if decide (0 < len m)%nat then setNoncesMap (Some ∅) else mret ());;
      mret ()
    else
      fail (NewTypeForDecodingErr
              "lnwire.LocalNoncesData (record too short for numEntries)"
              recordLen 2)
  else
    numEntriesBytes ← ReadFull 2;
    let numEntries :=
      Uint16 (numEntriesBytes !!! 0%fin) (numEntriesBytes !!! 1%fin) in
    let expectedTotalRecordLength :=
      uint64 (uint64 2
              + uint64 (uint64 numEntries
                        * N.of_nat (HashSize + PubNonceSize))) in
    if negb (recordLen =? expectedTotalRecordLength) then
      fail (NewTypeForDecodingErr
              "lnwire.LocalNoncesData (record length mismatch)"
              recordLen expectedTotalRecordLength)
    else if numEntries =? 0 then
      m ← getNoncesMap;
      (if decide (0 < len m)%nat then setNoncesMap (Some ∅) else mret ());;
      mret ()
    else
      setNoncesMap (Some ∅);;
      read_entries (N.to_nat numEntries).

(** [decodeLocalNoncesData] implements the [tlv.Decoder]: it returns the
    source, the value behind [val] and the error, [None] being Go's [nil]. *)
Definition decodeLocalNoncesData (r : list byte) (val : Value) (recordLen : N)
    : list byte * Value * option error :=
  match val with
  | OtherValue =>
      (r, val,
       Some (NewTypeForDecodingErr "*lnwire.LocalNoncesData" recordLen 0))
  | PtrLocalNoncesData lnd =>
      match decode_into recordLen {| reader := r; dest := lnd |} with
      | (s, Ok _) => (reader s, PtrLocalNoncesData (dest s), None)
      | (s, Err err) => (reader s, PtrLocalNoncesData (dest s), Some err)
      end
  end.

(** ** The wire format and the notions the properties are stated with *)

(** Byte-lexicographic order, the first byte being the most significant. *)
Inductive lex_lt : list byte → list byte → Prop :=
  | lex_lt_nil y b : lex_lt [] (y :: b)
  | lex_lt_head x y a b : Byte.to_N x < Byte.to_N y → lex_lt (x :: a) (y :: b)
  | lex_lt_tail x a b : lex_lt a b → lex_lt (x :: a) (x :: b).

(** Entries in ascending order of their ids. *)
Definition id_lt (a b : LocalNonceEntry) : Prop :=
  lex_lt (vec_to_list (TXID a)) (vec_to_list (TXID b)).

(** One entry on the wire: the 32 id bytes, then the 66 nonce bytes. *)
Definition entry_bytes (e : LocalNonceEntry) : list byte :=
  vec_to_list (TXID e) ++ vec_to_list (Nonce e).

(** Entries back to back. *)
Definition entries_bytes (es : list LocalNonceEntry) : list byte :=
  es ≫= entry_bytes.

(** The collection a [LocalNoncesData] stands for: a nil map has no entry. *)
Definition collection (lnd : LocalNoncesData) : gmap Hash Musig2Nonce :=
  default ∅ (NoncesMap lnd).

(** The destination once a nil map has been replaced by an empty one. *)
Definition initialized (lnd : LocalNoncesData) : LocalNoncesData :=
  {| NoncesMap := Some (collection lnd) |}.

(** Assigning entries to a map one after the other, in list order. *)
Definition assign_all (es : list LocalNonceEntry) (m : gmap Hash Musig2Nonce)
    : gmap Hash Musig2Nonce :=
  foldl (λ m e, <[TXID e := Nonce e]> m) m es.

(** The two kinds of [tlv] decoding error of this record. *)
Definition TooShort (err : option error) : Prop :=
  ∃ recordLen expected,
    err = Some (ErrTypeForDecoding
                  "lnwire.LocalNoncesData (record too short for numEntries)"
                  recordLen expected).

Definition LengthMismatch (err : option error) : Prop :=
  ∃ recordLen expected,
    err = Some (ErrTypeForDecoding
                  "lnwire.LocalNoncesData (record length mismatch)"
                  recordLen expected).

(** The iteration order of the map library, and the same one backwards. *)
#[global] Program Instance range_to_list : MapRange :=
  {| range := map_to_list |}.
Next Obligation. done. Qed.

Program Definition range_reversed : MapRange :=
  {| range m := reverse (map_to_list m) |}.
Next Obligation. intros m. apply reverse_Permutation. Qed.

(** Test data: [makeTestTxId] and [makeTestNonce] of the test suite fill an
    array with one byte. *)
Definition makeTestTxId (val : byte) : Hash := vreplicate HashSize val.
Definition makeTestNonce (val : byte) : Musig2Nonce :=
  vreplicate PubNonceSize val.

(** The entry with id [val ... val] and nonce [val ... val]. *)
Definition makeTestEntry (val : byte) : LocalNonceEntry :=
  {| TXID := makeTestTxId val; Nonce := makeTestNonce val |}.

(** The collection of the test "multiple entries unsorted". *)
Definition test_collection : gmap Hash Musig2Nonce :=
  <[makeTestTxId x03 := makeTestNonce x03]>
    (<[makeTestTxId x01 := makeTestNonce x01]>
       (<[makeTestTxId x02 := makeTestNonce x02]> ∅)).

(** A collection of [n] entries: the id of entry [i] starts with the
    big-endian [i], every nonce is zero. *)
Definition numbered_txid (i : nat) : Hash :=
  fill_array HashSize (PutUint16 (N.of_nat i)).

(** The number an id starts with. *)
Definition txid_number (txid : Hash) : N :=
  Uint16 (txid !!! 0%fin) (txid !!! 1%fin).

Definition numbered_collection (n : nat) : gmap Hash Musig2Nonce :=
  list_to_map ((λ i, (numbered_txid i, makeTestNonce x00)) <$> seq 0 n).

(** ** The round-trip test *)

(** How a test case ends: it passes, or [t.Fatalf] stops it. *)
Inductive test_outcome : Type :=
  | Pass
  | Fatal (msg : string).

(** The body of a case of [TestLocalNoncesDataEncodeDecodeValue]: encode
    [inputData] into a [bytes.Buffer], decode the bytes of the buffer into
    [NewLocalNoncesData()] with the length of the buffer as the record
    length, and compare the maps with [reflect.DeepEqual], for which a nil
    map and an empty map differ; a mismatch is tolerated when both maps are
    nil or empty. *)
Definition roundtrip_test {order : MapRange} (inputData : LocalNoncesData)
    : test_outcome :=
  match
    encodeLocalNoncesData (W := Buffer) [] (PtrLocalNoncesData inputData)
  with
  | (_, Some _) => Fatal "encodeLocalNoncesData failed"
  | (b, None) =>
      match
        decodeLocalNoncesData b (PtrLocalNoncesData NewLocalNoncesData)
          (uint64 (N.of_nat (length b)))
      with
      | (_, _, Some _) => Fatal "decodeLocalNoncesData failed"
      | (_, OtherValue, None) => Fatal "decodeLocalNoncesData failed"
      | (_, PtrLocalNoncesData decodedData, None) =>
          if decide (NoncesMap inputData = NoncesMap decodedData) then Pass
          else if
            decide ((NoncesMap inputData = None
                     ∨ len (NoncesMap inputData) = 0%nat)
                    ∧ (NoncesMap decodedData = None
                       ∨ len (NoncesMap decodedData) = 0%nat))
          then Pass
          else Fatal "map mismatch after encode/decode"
      end
  end.

(** * Properties *)

(** ** Bytes and the big-endian count *)

Lemma fill_array_to_list n (a : vec byte n) : fill_array n (vec_to_list a) = a.
Proof. induction a as [|b n a IH]; simpl; [done | by rewrite IH]. Qed.

Lemma to_N_lt_256 (b : byte) : Byte.to_N b < 256.
Proof. pose proof (Byte.to_N_bounded b). lia. Qed.

Lemma to_N_inj (x y : byte) : Byte.to_N x = Byte.to_N y → x = y.
Proof.
  intros E. pose proof (Byte.of_to_N x) as Hx.
  rewrite E, Byte.of_to_N in Hx. congruence.
Qed.

Lemma to_N_byte_of_N (x : N) : Byte.to_N (byte_of_N x) = x mod 256.
Proof.
  unfold byte_of_N. destruct (Byte.of_N (x mod 256)) as [b|] eqn:E.
  - by apply Byte.to_of_N.
  - apply Byte.of_N_None_iff in E.
    pose proof (N.mod_upper_bound x 256). lia.
Qed.

Lemma byte_of_N_to_N (b : byte) : byte_of_N (Byte.to_N b) = b.
Proof.
  apply to_N_inj. rewrite to_N_byte_of_N.
  apply N.mod_small, to_N_lt_256.
Qed.

(** On bytes the [|] and [<<] of [Uint16] add up: the two operands share no
    bit. *)
Lemma lor_shiftl_8 (lo hi : N) :
  lo < 256 → N.lor lo (N.shiftl hi 8) = lo + 256 * hi.
Proof.
  intros Hlo.
  assert (N.land lo (N.shiftl hi 8) = 0) as Hdisj.
  { apply N.bits_inj. intros i. rewrite N.land_spec, N.bits_0.
    destruct (decide (i < 8)) as [Hi|Hi].
    - rewrite (N.shiftl_spec_low hi 8 i Hi). apply andb_false_r.
    - assert (N.testbit lo i = false) as ->; [|done].
      rewrite <- (N.mod_small lo (2 ^ 8)) by exact Hlo.
      apply N.mod_pow2_bits_high. lia. }
  rewrite <- N.lxor_lor, <- N.add_nocarry_lxor by exact Hdisj.
  rewrite N.shiftl_mul_pow2. change (2 ^ 8) with 256. lia.
Qed.

Lemma Uint16_value (b0 b1 : byte) :
  Uint16 b0 b1 = Byte.to_N b1 + 256 * Byte.to_N b0.
Proof. unfold Uint16. apply lor_shiftl_8, to_N_lt_256. Qed.

Lemma Uint16_lt (b0 b1 : byte) : Uint16 b0 b1 < 65536.
Proof.
  rewrite Uint16_value.
  pose proof (to_N_lt_256 b0). pose proof (to_N_lt_256 b1). lia.
Qed.

(** Reading back a count that fits in 16 bits. *)
Lemma Uint16_PutUint16 (v : N) :
  v < 65536 →
  Uint16 (byte_of_N (N.shiftr v 8)) (byte_of_N v) = v.
Proof.
  intros Hv. rewrite Uint16_value, !to_N_byte_of_N, N.shiftr_div_pow2.
  change (2 ^ 8) with 256.
  assert (v / 256 < 256) by (apply N.Div0.div_lt_upper_bound; lia).
  rewrite (N.mod_small (v / 256)) by done.
  pose proof (N.div_mod v 256). lia.
Qed.

Lemma PutUint16_0 : PutUint16 0 = [x00; x00].
Proof. reflexivity. Qed.

Lemma length_PutUint16 (v : N) : length (PutUint16 v) = 2%nat.
Proof. reflexivity. Qed.

(** The expected record length never wraps: a 16-bit count times 98, plus
    2, is far below 2^64. *)
Lemma expected_length_no_wrap (numEntries : N) :
  numEntries < 65536 →
  uint64 (uint64 2
          + uint64 (uint64 numEntries * N.of_nat (HashSize + PubNonceSize)))
  = 2 + numEntries * 98.
Proof.
  intros Hn. unfold uint64, HashSize, PubNonceSize.
  change (N.of_nat (32 + 66)) with 98.
  rewrite (N.mod_small 2) by lia.
  rewrite (N.mod_small numEntries) by lia.
  rewrite (N.mod_small (numEntries * 98)) by lia.
  apply N.mod_small. lia.
Qed.

(** ** bytes.Compare and the lexicographic order *)

Lemma bytes_Compare_lt (a b : list byte) :
  (bytes_Compare a b < 0)%Z ↔ lex_lt a b.
Proof.
  revert b. induction a as [|x a IH]; intros [|y b]; simpl.
  - split; [lia | inversion 1].
  - split; [constructor | lia].
  - split; [lia | inversion 1].
  - destruct (N.ltb_spec (Byte.to_N x) (Byte.to_N y)) as [Hxy|Hxy].
    { split; [by constructor | lia]. }
    destruct (N.ltb_spec (Byte.to_N y) (Byte.to_N x)) as [Hyx|Hyx].
    { split; [lia|]. inversion 1; subst; lia. }
    assert (x = y) as -> by (apply to_N_inj; lia).
    rewrite IH. split; [by constructor|].
    inversion 1; subst; [lia | done].
Qed.

Lemma bytes_Compare_eq (a b : list byte) :
  bytes_Compare a b = 0%Z ↔ a = b.
Proof.
  revert b. induction a as [|x a IH]; intros [|y b]; simpl; try done.
  destruct (N.ltb_spec (Byte.to_N x) (Byte.to_N y)) as [Hxy|Hxy].
  { split; [done|]. intros [= -> ->]. lia. }
  destruct (N.ltb_spec (Byte.to_N y) (Byte.to_N x)) as [Hyx|Hyx].
  { split; [done|]. intros [= -> ->]. lia. }
  assert (x = y) as -> by (apply to_N_inj; lia).
  rewrite IH. split; [by intros -> | by intros [= ->]].
Qed.

Lemma lex_lt_irrefl (a : list byte) : ¬ lex_lt a a.
Proof. induction a as [|x a IH]; inversion 1; subst; [lia | done]. Qed.

Lemma lex_lt_trans (a b c : list byte) :
  lex_lt a b → lex_lt b c → lex_lt a c.
Proof.
  intros Hab. revert c.
  induction Hab as [y b|x y a b Hxy|x a b Hab IH]; intros c Hbc;
    inversion Hbc; subst.
  - constructor.
  - constructor.
  - constructor. lia.
  - by constructor.
  - by constructor.
  - apply lex_lt_tail. by apply IH.
Qed.

Lemma lex_lt_trichotomy (a b : list byte) : lex_lt a b ∨ a = b ∨ lex_lt b a.
Proof.
  revert b. induction a as [|x a IH]; intros [|y b].
  - by right; left.
  - left. constructor.
  - right; right. constructor.
  - destruct (N.lt_trichotomy (Byte.to_N x) (Byte.to_N y)) as [H|[H|H]].
    + left. by constructor.
    + apply to_N_inj in H as ->.
      destruct (IH b) as [H|[->|H]].
      * left. by constructor.
      * by right; left.
      * right; right. by constructor.
    + right; right. by constructor.
Qed.

#[global] Instance id_lt_trans : Transitive id_lt.
Proof. intros a b c. apply lex_lt_trans. Qed.

#[global] Instance id_lt_antisymm : AntiSymm (=) id_lt.
Proof.
  intros a b Hab Hba. destruct (lex_lt_irrefl (vec_to_list (TXID a))).
  by eapply lex_lt_trans.
Qed.

Lemma entry_less_spec (a b : LocalNonceEntry) :
  entry_less a b = true ↔ id_lt a b.
Proof.
  unfold entry_less, id_lt. rewrite bool_decide_eq_true.
  apply bytes_Compare_lt.
Qed.

(** Two entries with different ids are ordered one way or the other. *)
Lemma entry_less_total (a b : LocalNonceEntry) :
  TXID a ≠ TXID b → entry_less a b = false → id_lt b a.
Proof.
  intros Hne Hless.
  destruct (lex_lt_trichotomy (vec_to_list (TXID a)) (vec_to_list (TXID b)))
    as [H|[H|H]].
  - apply entry_less_spec in H. congruence.
  - by apply vec_to_list_inj2 in H.
  - done.
Qed.

(** ** sort.Slice *)

Section sort_Slice.
Context {A : Type} (less : A → A → bool).

Lemma sort_insert_perm (x : A) (s : list A) :
  sort_insert less x s ≡ₚ x :: s.
Proof.
  induction s as [|y s IH]; simpl; [done|].
  destruct (less x y); [done|]. rewrite IH. apply Permutation_swap.
Qed.

Lemma sort_Slice_perm (s : list A) : sort_Slice less s ≡ₚ s.
Proof.
  induction s as [|x s IH]; simpl; [done|].
  by rewrite sort_insert_perm, IH.
Qed.

Lemma length_sort_Slice (s : list A) : length (sort_Slice less s) = length s.
Proof. apply Permutation_length, sort_Slice_perm. Qed.

(** Inserting into an ordered slice keeps it ordered, as long as [less]
    decides the order between the new element and those already there. *)
Lemma Sorted_sort_insert (R : relation A) (x : A) (s : list A) :
  (∀ y, less x y = true → R x y) →
  (∀ y, y ∈ s → less x y = false → R y x) →
  Sorted R s → Sorted R (sort_insert less x s).
Proof.
  intros Hlt Hge Hs. induction Hs as [|y s Hs IH Hhd]; simpl.
  - repeat constructor.
  - destruct (less x y) eqn:Hxy.
    + constructor; [by constructor|]. constructor. by apply Hlt.
    + constructor.
      * apply IH. intros z Hz. apply Hge. by right.
      * destruct Hhd as [|z s Hyz]; simpl.
        { constructor. apply Hge; [left | done]. }
        destruct (less x z); constructor; [|done].
        apply Hge; [left | done].
Qed.
End sort_Slice.

(** Sorting entries with distinct ids puts them in ascending order of id. *)
Lemma Sorted_sort_entries (s : list LocalNonceEntry) :
  NoDup (TXID <$> s) → Sorted id_lt (sort_Slice entry_less s).
Proof.
  induction s as [|x s IH]; simpl; [constructor|].
  rewrite NoDup_cons. intros [Hx Hs].
  apply Sorted_sort_insert; [| |by apply IH].
  - intros y. apply entry_less_spec.
  - intros y Hy. apply entry_less_total. intros E. apply Hx.
    rewrite E. apply list_elem_of_fmap_2.
    by rewrite <- (sort_Slice_perm entry_less s).
Qed.

(** On entries with distinct ids the contract of [sort.Slice] fixes its
    result: any rearrangement of the slice in which no entry is [less] than
    an earlier one is the one computed here. *)
Lemma sort_Slice_unique (s s' : list LocalNonceEntry) :
  NoDup (TXID <$> s) → s' ≡ₚ s →
  StronglySorted (λ a b, entry_less b a = false) s' →
  s' = sort_Slice entry_less s.
Proof.
  intros Hnd Hperm Hsorted.
  apply (StronglySorted_unique id_lt).
  - rewrite <- Hperm in Hnd. clear Hperm.
    induction Hsorted as [|x l Hl IH Hx]; [constructor|].
    simpl in Hnd. apply NoDup_cons in Hnd as [Hx' Hnd].
    constructor; [by apply IH|].
    rewrite Forall_forall in Hx |- *. intros y Hy.
    apply entry_less_total; [|by apply Hx].
    intros E. apply Hx'. rewrite <- E. by apply list_elem_of_fmap_2.
  - by apply Sorted_StronglySorted, Sorted_sort_entries; [apply _|].
  - by rewrite Hperm, sort_Slice_perm.
Qed.

(** ** The encoder *)

Lemma length_entry_bytes (e : LocalNonceEntry) :
  length (entry_bytes e) = 98%nat.
Proof.
  unfold entry_bytes. by rewrite length_app, !length_vec_to_list.
Qed.

Lemma entries_bytes_cons (e : LocalNonceEntry) (es : list LocalNonceEntry) :
  entries_bytes (e :: es) = entry_bytes e ++ entries_bytes es.
Proof. reflexivity. Qed.

Lemma length_entries_bytes (es : list LocalNonceEntry) :
  length (entries_bytes es) = (98 * length es)%nat.
Proof.
  induction es as [|e es IH]; [done|].
  rewrite entries_bytes_cons, length_app, length_entry_bytes, IH. simpl. lia.
Qed.

(** Into a [bytes.Buffer] the entry loop appends every entry and does not
    fail. *)
Lemma write_entries_Buffer (b : Buffer) (es : list LocalNonceEntry) :
  write_entries b es = (b ++ entries_bytes es, None).
Proof.
  revert b. induction es as [|e es IH]; intros b; simpl.
  - by rewrite app_nil_r.
  - unfold Write, Buffer_Writer. rewrite IH.
    rewrite <- !app_assoc. unfold entry_bytes. by rewrite <- app_assoc.
Qed.

(** An error of the entry loop is one that a [Write] returned. *)
Lemma write_entries_error `{Writer W} (w w' : W) (es : list LocalNonceEntry)
    (err : error) :
  write_entries w es = (w', Some err) →
  ∃ w0 p, Write w0 p = (w', Some err).
Proof.
  revert w. induction es as [|e es IH]; intros w; simpl; [done|].
  destruct (Write w (vec_to_list (TXID e))) as [w1 [e1|]] eqn:E1.
  { intros [= <- <-]. eauto. }
  destruct (Write w1 (vec_to_list (Nonce e))) as [w2 [e2|]] eqn:E2.
  { intros [= <- <-]. eauto. }
  apply IH.
Qed.

Section sorted_entries.
Context {order : MapRange}.

Lemma TXID_entry_of (l : list (Hash * Musig2Nonce)) :
  TXID <$> (entry_of <$> l) = l.*1.
Proof. by rewrite <- list_fmap_compose. Qed.

Lemma NoDup_range (m : gmap Hash Musig2Nonce) :
  NoDup (TXID <$> (entry_of <$> range m)).
Proof.
  rewrite TXID_entry_of, range_perm. apply NoDup_fst_map_to_list.
Qed.

Lemma length_range (m : gmap Hash Musig2Nonce) : length (range m) = size m.
Proof. by rewrite range_perm, length_map_to_list. Qed.

(** The entries the encoder writes are those of the collection. *)
Lemma sorted_entries_perm (lnd : LocalNoncesData) :
  (sorted_entries lnd).2 ≡ₚ entry_of <$> map_to_list (collection lnd).
Proof.
  unfold sorted_entries, collection. destruct (NoncesMap lnd) as [m|]; simpl.
  - case_decide as Hm; simpl.
    + by rewrite sort_Slice_perm, range_perm.
    + assert (m = ∅) as -> by (apply map_size_empty_iff; lia).
      by rewrite map_to_list_empty.
  - by rewrite map_to_list_empty.
Qed.

Lemma length_sorted_entries (lnd : LocalNoncesData) :
  length (sorted_entries lnd).2 = len (NoncesMap lnd).
Proof.
  unfold sorted_entries, len. destruct (NoncesMap lnd) as [m|]; simpl; [|done].
  case_decide as Hm; simpl.
  - by rewrite length_sort_Slice, length_fmap, length_range.
  - lia.
Qed.

(** The count is the number of entries, converted to [uint16]. *)
Lemma sorted_entries_count (lnd : LocalNoncesData) :
  (sorted_entries lnd).1 = uint16 (N.of_nat (len (NoncesMap lnd))).
Proof.
  unfold sorted_entries, len. destruct (NoncesMap lnd) as [m|]; simpl; [|done].
  case_decide as Hm; simpl.
  - by rewrite length_sort_Slice, length_fmap, length_range.
  - by replace (size m) with 0%nat by lia.
Qed.

Lemma Sorted_sorted_entries (lnd : LocalNoncesData) :
  Sorted id_lt (sorted_entries lnd).2.
Proof.
  unfold sorted_entries. destruct (NoncesMap lnd) as [m|]; simpl; [|constructor].
  case_decide as Hm; simpl; [|constructor].
  apply Sorted_sort_entries, NoDup_range.
Qed.

(** Into a [bytes.Buffer] the encoder appends the count and the entries. *)
Lemma encode_Buffer (b : Buffer) (lnd : LocalNoncesData) :
  encodeLocalNoncesData b (PtrLocalNoncesData lnd)
  = (b ++ PutUint16 (sorted_entries lnd).1 ++ entries_bytes (sorted_entries lnd).2,
     None).
Proof.
  unfold encodeLocalNoncesData.
  destruct (sorted_entries lnd) as [numEntries sortedEntries]; simpl.
  by rewrite write_entries_Buffer, <- app_assoc.
Qed.
End sorted_entries.

(** The ordered entries do not depend on the iteration order of the map. *)
Lemma sorted_entries_order (o1 o2 : MapRange) (lnd : LocalNoncesData) :
  sorted_entries (order := o1) lnd = sorted_entries (order := o2) lnd.
Proof.
  apply injective_projections.
  - by rewrite !sorted_entries_count.
  - apply (Sorted_unique id_lt); [apply Sorted_sorted_entries..|].
    by rewrite !sorted_entries_perm.
Qed.

(** ** The decoder *)

Lemma vec_to_list_fill_array (n : nat) (p : list byte) :
  length p = n → vec_to_list (fill_array n p) = p.
Proof.
  revert p. induction n as [|n IH]; intros [|b p] Hp; simpl in *; try done.
  rewrite IH; [done | lia].
Qed.

(** A full read takes an array off the front of the source. *)
Lemma ReadFull_app (n : nat) (a : vec byte n) (rest : list byte)
    (d : LocalNoncesData) :
  ReadFull n {| reader := vec_to_list a ++ rest; dest := d |}
  = ({| reader := rest; dest := d |}, Ok a).
Proof.
  unfold ReadFull; simpl. rewrite decide_True.
  - rewrite take_app_length', drop_app_length'
      by (symmetry; apply length_vec_to_list).
    by rewrite fill_array_to_list.
  - rewrite length_app, length_vec_to_list. lia.
Qed.

(** A read from a source that holds too little fails and drains it. *)
Lemma ReadFull_short (n : nat) (r : list byte) (d : LocalNoncesData) :
  (length r < n)%nat →
  ∃ err, ReadFull n {| reader := r; dest := d |}
         = ({| reader := []; dest := d |}, Err err)
         ∧ (err = EOF ∨ err = ErrUnexpectedEOF).
Proof.
  intros Hr. unfold ReadFull; simpl. rewrite decide_False by lia.
  destruct r; eauto.
Qed.

Lemma assign_all_snoc (es : list LocalNonceEntry) (e : LocalNonceEntry)
    (m : gmap Hash Musig2Nonce) :
  assign_all (es ++ [e]) m = <[TXID e := Nonce e]> (assign_all es m).
Proof. unfold assign_all. by rewrite foldl_app. Qed.

(** The entry loop on a source that starts with as many entries as it is
    to read. *)
Lemma read_entries_ok (es : list LocalNonceEntry) (rest : list byte)
    (m : gmap Hash Musig2Nonce) :
  read_entries (length es)
    {| reader := entries_bytes es ++ rest; dest := {| NoncesMap := Some m |} |}
  = ({| reader := rest; dest := {| NoncesMap := Some (assign_all es m) |} |},
     Ok ()).
Proof.
  revert m. induction es as [|e es IH]; intros m; [done|].
  rewrite entries_bytes_cons. unfold entry_bytes. rewrite <- !app_assoc.
  cbn [length read_entries]. unfold mbind, Dec_bind.
  rewrite ReadFull_app, ReadFull_app. simpl. apply IH.
Qed.

(** The entry loop on a source that ends early: the entries read in full
    have been assigned, and the loop stops with a read error. *)
Lemma read_entries_short (n : nat) (es : list LocalNonceEntry)
    (tail : list byte) (m : gmap Hash Musig2Nonce) :
  (length es < n)%nat → (length tail < 98)%nat →
  ∃ err,
    read_entries n
      {| reader := entries_bytes es ++ tail; dest := {| NoncesMap := Some m |} |}
    = ({| reader := []; dest := {| NoncesMap := Some (assign_all es m) |} |},
       Err err)
    ∧ (err = EOF ∨ err = ErrUnexpectedEOF).
Proof.
  revert n m. induction es as [|e es IH]; intros [|n] m Hn Ht; simpl in Hn;
    try lia.
  - simpl. unfold mbind, Dec_bind.
    destruct (decide (length tail < HashSize)%nat) as [Hshort|Hlong].
    + destruct (ReadFull_short HashSize tail {| NoncesMap := Some m |} Hshort)
        as (err & -> & Herr). eauto.
    + unfold HashSize in Hlong.
      set (txid := fill_array HashSize (take 32 tail)).
      assert (tail = vec_to_list txid ++ drop 32 tail) as Htail.
      { unfold txid. rewrite vec_to_list_fill_array, take_drop; [done|].
        rewrite length_take. unfold HashSize. lia. }
      destruct (ReadFull_short PubNonceSize (drop 32 tail)
                  {| NoncesMap := Some m |}) as (err & Hread & Herr).
      { rewrite length_drop. unfold PubNonceSize. lia. }
      exists err. rewrite Htail at 1. by rewrite ReadFull_app, Hread.
  - rewrite entries_bytes_cons. unfold entry_bytes. rewrite <- !app_assoc.
    cbn [read_entries]. unfold mbind, Dec_bind.
    rewrite ReadFull_app, ReadFull_app. simpl. apply IH; lia.
Qed.

(** Any byte string is a run of whole entries followed by less than one. *)
Lemma split_entries (r : list byte) :
  ∃ es tail, r = entries_bytes es ++ tail ∧ (length tail < 98)%nat.
Proof.
  remember (length r) as k eqn:Hk. revert r Hk.
  induction k as [k IH] using lt_wf_ind. intros r ->.
  destruct (decide (length r < 98)%nat) as [Hshort|Hlong].
  { by exists [], r. }
  destruct (IH (length (drop 98 r))) with (r := drop 98 r)
    as (es & tail & Hes & Htail); [rewrite length_drop; lia | done |].
  exists ({| TXID := fill_array HashSize (take 32 r);
             Nonce := fill_array PubNonceSize (take 66 (drop 32 r)) |} :: es),
    tail.
  split; [|done].
  rewrite entries_bytes_cons. unfold entry_bytes. cbn [TXID Nonce].
  rewrite !vec_to_list_fill_array
    by (rewrite ?length_take, ?length_drop; unfold HashSize, PubNonceSize; lia).
  rewrite <- !app_assoc, <- Hes.
  change (drop 98 r) with (drop (32 + 66) r).
  by rewrite <- drop_drop, !take_drop.
Qed.

(** The decoder step by step: the nil map is initialized first; then come
    the checks on the record length, the count, and the entry loop. *)
Lemma decode_into_unfold (recordLen : N) (r : list byte) (lnd : LocalNoncesData) :
  decode_into recordLen {| reader := r; dest := lnd |}
  = if recordLen <? 2 then
      if recordLen =? 0 then
        ({| reader := r; dest := {| NoncesMap := Some ∅ |} |}, Ok ())
      else
        ({| reader := r; dest := initialized lnd |},
         Err (ErrTypeForDecoding
                "lnwire.LocalNoncesData (record too short for numEntries)"
                recordLen 2))
    else
      match ReadFull 2 {| reader := r; dest := initialized lnd |} with
      | (s, Err err) => (s, Err err)
      | (s, Ok b) =>
          let numEntries := Uint16 (b !!! 0%fin) (b !!! 1%fin) in
          if negb (recordLen =? 2 + numEntries * 98) then
            (s, Err (ErrTypeForDecoding
                       "lnwire.LocalNoncesData (record length mismatch)"
                       recordLen (2 + numEntries * 98)))
          else if numEntries =? 0 then
            ({| reader := reader s; dest := {| NoncesMap := Some ∅ |} |}, Ok ())
          else
            read_entries (N.to_nat numEntries)
              {| reader := reader s; dest := {| NoncesMap := Some ∅ |} |}
      end.
Proof.
  assert (∀ (m : gmap Hash Musig2Nonce) (r' : list byte),
    (m' ← getNoncesMap;
     (if decide (0 < len m')%nat then setNoncesMap (Some ∅) else mret ());;
     mret ()) {| reader := r'; dest := {| NoncesMap := Some m |} |}
    = ({| reader := r'; dest := {| NoncesMap := Some ∅ |} |}, Ok ())) as Hclear.
  { intros m r'. unfold mbind, Dec_bind, getNoncesMap; simpl.
    case_decide as Hm; [done|].
    assert (m = ∅) as -> by (apply map_size_empty_iff; lia). done. }
  assert ((m ← getNoncesMap;
           if decide (m = None) then setNoncesMap (Some ∅) else mret ())
            {| reader := r; dest := lnd |}
          = ({| reader := r; dest := initialized lnd |}, Ok ())) as Hinit.
  { unfold mbind, Dec_bind, getNoncesMap, initialized, collection; simpl.
    destruct lnd as [[m|]]; by simpl. }
  unfold decode_into.
  unfold mbind at 1, Dec_bind at 1. unfold getNoncesMap at 1.
  cbn [dest reader].
  unfold mbind at 1, Dec_bind at 1.
  unfold mbind, Dec_bind, getNoncesMap in Hinit. cbn [dest reader] in Hinit.
  rewrite Hinit. unfold initialized at 1 2.
  destruct (recordLen <? 2).
  - destruct (recordLen =? 0); [apply Hclear | done].
  - unfold mbind at 1, Dec_bind at 1.
    fold (initialized lnd).
    destruct (ReadFull 2 {| reader := r; dest := initialized lnd |})
      as [s [b|err]] eqn:Hread; [|done].
    assert (dest s = initialized lnd) as Hs.
    { unfold ReadFull in Hread. cbn [reader dest] in Hread.
      case_decide; by simplify_eq. }
    cbv zeta.
    rewrite expected_length_no_wrap by apply Uint16_lt.
    destruct (negb _); [done|].
    destruct (_ =? 0); [|done].
    destruct s as [r' d]. simpl in Hs. subst d. apply Hclear.
Qed.

(** The decoder on a source that holds the two bytes of the count. *)
Lemma decode_into_count (recordLen : N) (b0 b1 : byte) (r : list byte)
    (lnd : LocalNoncesData) :
  2 ≤ recordLen →
  decode_into recordLen {| reader := b0 :: b1 :: r; dest := lnd |}
  = if negb (recordLen =? 2 + Uint16 b0 b1 * 98) then
      ({| reader := r; dest := initialized lnd |},
       Err (ErrTypeForDecoding
              "lnwire.LocalNoncesData (record length mismatch)"
              recordLen (2 + Uint16 b0 b1 * 98)))
    else if Uint16 b0 b1 =? 0 then
      ({| reader := r; dest := {| NoncesMap := Some ∅ |} |}, Ok ())
    else
      read_entries (N.to_nat (Uint16 b0 b1))
        {| reader := r; dest := {| NoncesMap := Some ∅ |} |}.
Proof.
  intros Hlen. rewrite decode_into_unfold.
  destruct (N.ltb_spec recordLen 2) as [?|_]; [lia|].
  by rewrite (ReadFull_app 2 [# b0; b1] r).
Qed.

(** The entry loop fails with a read error only, and leaves a map behind. *)
Lemma read_entries_result (n : nat) (r : list byte) (m : gmap Hash Musig2Nonce) :
  ∃ r' m' res,
    read_entries n {| reader := r; dest := {| NoncesMap := Some m |} |}
    = ({| reader := r'; dest := {| NoncesMap := Some m' |} |}, res)
    ∧ ∀ err, res = Err err → err = EOF ∨ err = ErrUnexpectedEOF.
Proof.
  revert r m. induction n as [|n IH]; intros r m.
  { exists r, m, (Ok ()). by split. }
  cbn [read_entries]. unfold mbind, Dec_bind.
  unfold ReadFull at 1. cbn [reader dest].
  case_decide as H1.
  2:{ exists [], m, (Err (match r with [] => EOF | _ => ErrUnexpectedEOF end)).
      split; [done|]. intros err [= <-]. destruct r; auto. }
  unfold ReadFull at 1. cbn [reader dest].
  case_decide as H2.
  2:{ exists [], m,
        (Err (match drop HashSize r with [] => EOF | _ => ErrUnexpectedEOF end)).
      split; [done|]. intros err [= <-]. destruct (drop HashSize r); auto. }
  unfold assignNonce, mbind, Dec_bind, getNoncesMap, setNoncesMap.
  cbn [reader dest NoncesMap]. apply IH.
Qed.

(** What [decodeLocalNoncesData] returns, from a run of its body. *)
Lemma decode_run (r : list byte) (lnd : LocalNoncesData) (recordLen : N) :
  decodeLocalNoncesData r (PtrLocalNoncesData lnd) recordLen
  = let run := decode_into recordLen {| reader := r; dest := lnd |} in
    (reader run.1, PtrLocalNoncesData (dest run.1),
     match run.2 with Ok _ => None | Err err => Some err end).
Proof.
  unfold decodeLocalNoncesData.
  by destruct (decode_into recordLen _) as [s [[]|err]].
Qed.

(** A declared length of at least 2 that differs from what the count
    implies is refused, the destination keeping its entries. *)
Lemma decode_mismatch (b0 b1 : byte) (r : list byte) (lnd : LocalNoncesData)
    (recordLen : N) :
  2 ≤ recordLen → recordLen ≠ 2 + Uint16 b0 b1 * 98 →
  decodeLocalNoncesData (b0 :: b1 :: r) (PtrLocalNoncesData lnd) recordLen
  = (r, PtrLocalNoncesData (initialized lnd),
     Some (ErrTypeForDecoding
             "lnwire.LocalNoncesData (record length mismatch)"
             recordLen (2 + Uint16 b0 b1 * 98))).
Proof.
  intros Hlen Hne. rewrite decode_run, decode_into_count by done.
  by destruct (N.eqb_spec recordLen (2 + Uint16 b0 b1 * 98)).
Qed.

(** ** The checks of the decoder *)

(** C7: decode with a declared length of 0 succeeds and yields an empty
    collection, whatever the source holds and whatever the destination held
    before; so does decode of the two bytes 00 00 with a declared length of
    2. *)
Theorem decode_empty_value (r : list byte) (lnd : LocalNoncesData) :
  decodeLocalNoncesData r (PtrLocalNoncesData lnd) 0
  = (r, PtrLocalNoncesData {| NoncesMap := Some ∅ |}, None)
  ∧ decodeLocalNoncesData [x00; x00] (PtrLocalNoncesData lnd) 2
    = ([], PtrLocalNoncesData {| NoncesMap := Some ∅ |}, None).
Proof.
  split.
  - by rewrite decode_run, decode_into_unfold.
  - by rewrite decode_run, decode_into_count.
Qed.

(** C6: with a declared length of 1 (the only one above 0 and below 2)
    decode fails with the too-short error, without reading from the source:
    the source is returned as it was. *)
Theorem decode_too_short (r : list byte) (lnd : LocalNoncesData) (recordLen : N) :
  0 < recordLen → recordLen < 2 →
  decodeLocalNoncesData r (PtrLocalNoncesData lnd) recordLen
  = (r, PtrLocalNoncesData (initialized lnd),
     Some (ErrTypeForDecoding
             "lnwire.LocalNoncesData (record too short for numEntries)"
             recordLen 2))
  ∧ TooShort (decodeLocalNoncesData r (PtrLocalNoncesData lnd) recordLen).2.
Proof.
  intros Hpos Hlt.
  assert (decodeLocalNoncesData r (PtrLocalNoncesData lnd) recordLen
          = (r, PtrLocalNoncesData (initialized lnd),
             Some (ErrTypeForDecoding
                     "lnwire.LocalNoncesData (record too short for numEntries)"
                     recordLen 2))) as Heq.
  { rewrite decode_run, decode_into_unfold.
    destruct (N.ltb_spec recordLen 2) as [_|?]; [|lia].
    destruct (N.eqb_spec recordLen 0) as [?|_]; [lia|]. done. }
  split; [done|]. rewrite Heq. by eexists _, _.
Qed.

Lemma decode_too_short_witness :
  0 < 1 ∧ 1 < 2
  ∧ decodeLocalNoncesData [x01] (PtrLocalNoncesData NewLocalNoncesData) 1
    = ([x01], PtrLocalNoncesData (initialized NewLocalNoncesData),
       Some (ErrTypeForDecoding
               "lnwire.LocalNoncesData (record too short for numEntries)" 1 2))
  ∧ TooShort
      (decodeLocalNoncesData [x01] (PtrLocalNoncesData NewLocalNoncesData) 1).2.
Proof.
  split; [lia|]. split; [lia|].
  apply (decode_too_short [x01] NewLocalNoncesData 1); lia.
Defined.

(** C5: when the declared length is at least 2 and the source yields the
    two bytes of the count, decode fails with the length-mismatch error
    exactly when the declared length differs from 2 + count * 98, be it
    larger or smaller. *)
Theorem decode_length_mismatch_iff (b0 b1 : byte) (r : list byte)
    (lnd : LocalNoncesData) (recordLen : N) :
  2 ≤ recordLen →
  LengthMismatch
    (decodeLocalNoncesData (b0 :: b1 :: r) (PtrLocalNoncesData lnd) recordLen).2
  ↔ recordLen ≠ 2 + Uint16 b0 b1 * 98.
Proof.
  intros Hlen. rewrite decode_run, decode_into_count by done. cbv zeta.
  destruct (N.eqb_spec recordLen (2 + Uint16 b0 b1 * 98)) as [Heq|Hne];
    cbn [negb].
  - split; [|done]. intros (l & e & Herr). exfalso. revert Herr.
    destruct (Uint16 b0 b1 =? 0); [done|].
    destruct (read_entries_result (N.to_nat (Uint16 b0 b1)) r ∅)
      as (r' & m' & res' & -> & Hres). cbn [fst snd].
    destruct res' as [[]|err]; [done|].
    destruct (Hres err eq_refl) as [-> | ->]; done.
  - split; [done|]. intros _. by eexists _, _.
Qed.

Lemma decode_length_mismatch_iff_witness :
  2 ≤ 101
  ∧ (LengthMismatch
       (decodeLocalNoncesData (x00 :: x01 :: replicate 98 x00)
          (PtrLocalNoncesData NewLocalNoncesData) 101).2
     ↔ 101 ≠ 2 + Uint16 x00 x01 * 98).
Proof.
  split; [lia|].
  apply (decode_length_mismatch_iff x00 x01 (replicate 98 x00)
           NewLocalNoncesData 101).
  lia.
Defined.

(** C10: every call of decode on a destination whose map is nil leaves the
    destination with a map that is not nil, whether the call succeeds or
    fails; a failed call turns the nil map into an empty one. *)
Theorem decode_nil_map_initialized (r : list byte) (recordLen : N) :
  (∃ r' m err,
     decodeLocalNoncesData r (PtrLocalNoncesData {| NoncesMap := None |}) recordLen
     = (r', PtrLocalNoncesData {| NoncesMap := Some m |}, err))
  ∧ ∃ err,
      decodeLocalNoncesData [x01] (PtrLocalNoncesData {| NoncesMap := None |}) 1
      = ([x01], PtrLocalNoncesData {| NoncesMap := Some ∅ |}, Some err).
Proof.
  split; [|by eexists].
  rewrite decode_run, decode_into_unfold. cbv zeta.
  destruct (recordLen <? 2).
  { destruct (recordLen =? 0); by eexists _, _, _. }
  unfold ReadFull. cbn [reader dest].
  case_decide; [|by eexists _, _, _].
  destruct (negb _); [by eexists _, _, _|].
  destruct (_ =? 0); [by eexists _, _, _|].
  cbn [reader].
  match goal with
  | |- context [read_entries ?n {| reader := ?r0; dest := _ |}] =>
      destruct (read_entries_result n r0 ∅) as (r' & m' & res' & -> & _)
  end.
  by eexists _, _, _.
Qed.

(** ** Decoding a well-formed value *)

(** A value made of a count and that many entries decodes into the map
    obtained by assigning the entries in stream order to an empty map. *)
Lemma decode_entries (es : list LocalNonceEntry) (rest : list byte)
    (lnd : LocalNoncesData) :
  N.of_nat (length es) < 65536 →
  decodeLocalNoncesData
    (PutUint16 (N.of_nat (length es)) ++ entries_bytes es ++ rest)
    (PtrLocalNoncesData lnd) (2 + N.of_nat (length es) * 98)
  = (rest, PtrLocalNoncesData {| NoncesMap := Some (assign_all es ∅) |}, None).
Proof.
  intros Hlen. rewrite decode_run. unfold PutUint16. cbn [app].
  rewrite decode_into_count by lia.
  rewrite Uint16_PutUint16 by done. rewrite N.eqb_refl. cbn [negb].
  destruct (N.eqb_spec (N.of_nat (length es)) 0) as [H0|H0].
  - destruct es; [done | simpl in H0; lia].
  - by rewrite Nat2N.id, read_entries_ok.
Qed.

Lemma assign_all_lookup_ne (es : list LocalNonceEntry)
    (m : gmap Hash Musig2Nonce) (txid : Hash) :
  txid ∉ TXID <$> es → assign_all es m !! txid = m !! txid.
Proof.
  revert m. induction es as [|e es IH]; intros m Hnotin; [done|].
  rewrite fmap_cons, not_elem_of_cons in Hnotin. destruct Hnotin as [Hne Hes].
  unfold assign_all in *. simpl. rewrite IH by done.
  by apply lookup_insert_ne.
Qed.

(** The last entry with a given id decides what the id maps to. *)
Lemma assign_all_lookup_last (before after : list LocalNonceEntry)
    (e : LocalNonceEntry) (m : gmap Hash Musig2Nonce) :
  TXID e ∉ TXID <$> after →
  assign_all (before ++ e :: after) m !! TXID e = Some (Nonce e).
Proof.
  intros Hlast. unfold assign_all. rewrite foldl_app. simpl.
  fold (assign_all before m).
  fold (assign_all after (<[TXID e := Nonce e]> (assign_all before m))).
  rewrite assign_all_lookup_ne by done. apply lookup_insert_eq.
Qed.

(** Assigning entries with distinct ids builds the map with these
    entries, in whatever order they come. *)
Lemma assign_all_list_to_map (es : list LocalNonceEntry) :
  assign_all es ∅
  = list_to_map (reverse ((λ e, (TXID e, Nonce e)) <$> es)).
Proof.
  induction es as [|e es IH] using rev_ind; [done|].
  by rewrite assign_all_snoc, fmap_app, reverse_app, IH.
Qed.

Lemma assign_all_map_to_list (es : list LocalNonceEntry)
    (m : gmap Hash Musig2Nonce) :
  es ≡ₚ entry_of <$> map_to_list m → assign_all es ∅ = m.
Proof.
  intros Hperm. rewrite assign_all_list_to_map.
  assert ((λ e, (TXID e, Nonce e)) <$> es ≡ₚ map_to_list m) as Hpairs.
  { rewrite Hperm, <- list_fmap_compose.
    rewrite (list_fmap_ext _ id (map_to_list m)); [by rewrite list_fmap_id|].
    by intros i [k v] _. }
  rewrite <- (list_to_map_to_list m).
  apply list_to_map_proper.
  - rewrite reverse_Permutation, Hpairs. apply NoDup_fst_map_to_list.
  - by rewrite reverse_Permutation.
Qed.

(** C8: a value of the right length whose entries repeat an id is decoded
    without error, and the resulting collection maps that id to the nonce
    of the later entry, which is the last one with this id in the stream. *)
Theorem decode_duplicate_last_wins (before between after : list LocalNonceEntry)
    (earlier later : LocalNonceEntry) (lnd : LocalNoncesData) :
  let es := before ++ earlier :: between ++ later :: after in
  N.of_nat (length es) < 65536 →
  TXID earlier = TXID later →
  TXID later ∉ TXID <$> after →
  ∃ m,
    decodeLocalNoncesData
      (PutUint16 (N.of_nat (length es)) ++ entries_bytes es)
      (PtrLocalNoncesData lnd) (2 + N.of_nat (length es) * 98)
    = ([], PtrLocalNoncesData {| NoncesMap := Some m |}, None)
    ∧ m !! TXID earlier = Some (Nonce later).
Proof.
  intros es Hlen Hdup Hlast. exists (assign_all es ∅). split.
  - rewrite <- (app_nil_r (entries_bytes es)). by apply decode_entries.
  - rewrite Hdup. unfold es.
    replace (before ++ earlier :: between ++ later :: after)
      with ((before ++ earlier :: between) ++ later :: after)
      by (by rewrite <- app_assoc).
    by apply assign_all_lookup_last.
Qed.

Lemma decode_duplicate_last_wins_witness :
  let earlier := {| TXID := makeTestTxId x01; Nonce := makeTestNonce x01 |} in
  let later := {| TXID := makeTestTxId x01; Nonce := makeTestNonce x02 |} in
  N.of_nat (length [earlier; later]) < 65536
  ∧ TXID earlier = TXID later
  ∧ (TXID later ∉ TXID <$> [])
  ∧ ∃ m,
      decodeLocalNoncesData
        (PutUint16 2 ++ entries_bytes [earlier; later])
        (PtrLocalNoncesData NewLocalNoncesData) (2 + 2 * 98)
      = ([], PtrLocalNoncesData {| NoncesMap := Some m |}, None)
      ∧ m !! makeTestTxId x01 = Some (makeTestNonce x02).
Proof.
  intros earlier later.
  split; [by vm_compute|]. split; [reflexivity|].
  split; [apply not_elem_of_nil|].
  apply (decode_duplicate_last_wins [] [] [] earlier later NewLocalNoncesData);
    [by vm_compute | reflexivity | apply not_elem_of_nil].
Defined.

(** ** The layout and the order of the encoded entries *)

(** C4: for a collection whose number of entries fits in 16 bits, encode
    produces the 2-byte big-endian count followed by the entries of the
    collection, each as its 32 id bytes and its 66 nonce bytes, with nothing
    in between: 2 + count * 98 bytes in all, which is also what the record's
    length function announces; an empty collection gives the two bytes
    00 00. *)
Theorem encode_layout {order : MapRange} (lnd : LocalNoncesData) :
  let count := N.of_nat (len (NoncesMap lnd)) in
  count < 65536 →
  ∃ (b0 b1 : byte) (es : list LocalNonceEntry),
    encodeLocalNoncesData (W := Buffer) [] (PtrLocalNoncesData lnd)
    = (b0 :: b1 :: entries_bytes es, None)
    ∧ [b0; b1] = PutUint16 count
    ∧ Uint16 b0 b1 = count
    ∧ es ≡ₚ entry_of <$> map_to_list (collection lnd)
    ∧ N.of_nat (length es) = count
    ∧ N.of_nat (length (b0 :: b1 :: entries_bytes es)) = 2 + count * 98
    ∧ RecordLength lnd = 2 + count * 98
    ∧ (count = 0 → b0 :: b1 :: entries_bytes es = [x00; x00]).
Proof.
  intros count Hcount.
  exists (byte_of_N (N.shiftr count 8)), (byte_of_N count),
    (sorted_entries lnd).2.
  assert ((sorted_entries lnd).1 = count) as Hfield.
  { rewrite sorted_entries_count. apply N.mod_small, Hcount. }
  split; [by rewrite encode_Buffer, Hfield|].
  split; [done|].
  split; [by apply Uint16_PutUint16|].
  split; [apply sorted_entries_perm|].
  split; [by rewrite length_sorted_entries|].
  split.
  { cbn [length]. rewrite length_entries_bytes, length_sorted_entries.
    unfold count. lia. }
  split.
  { unfold RecordLength. fold count. case_decide as Hnil.
    - assert (count = 0) as ->; [|done].
      unfold count. destruct Hnil as [-> | ->]; done.
    - unfold uint64, HashSize, PubNonceSize.
      change (N.of_nat (32 + 66)) with 98.
      apply N.mod_small. lia. }
  intros H0. rewrite H0.
  assert (length (sorted_entries lnd).2 = 0%nat) as Hnil
    by (rewrite length_sorted_entries; unfold count in H0; lia).
  apply nil_length_inv in Hnil. by rewrite Hnil.
Qed.

Lemma encode_layout_witness :
  let lnd := {| NoncesMap := Some test_collection |} in
  N.of_nat (len (NoncesMap lnd)) < 65536
  ∧ ∃ (b0 b1 : byte) (es : list LocalNonceEntry),
      encodeLocalNoncesData (W := Buffer) [] (PtrLocalNoncesData lnd)
      = (b0 :: b1 :: entries_bytes es, None)
      ∧ [b0; b1] = PutUint16 3
      ∧ Uint16 b0 b1 = 3
      ∧ es ≡ₚ entry_of <$> map_to_list (collection lnd)
      ∧ N.of_nat (length es) = 3
      ∧ N.of_nat (length (b0 :: b1 :: entries_bytes es)) = 2 + 3 * 98
      ∧ RecordLength lnd = 2 + 3 * 98
      ∧ (3 = 0 → b0 :: b1 :: entries_bytes es = [x00; x00]).
Proof.
  intros lnd. split; [by vm_compute|].
  apply (encode_layout (order := range_to_list) lnd). by vm_compute.
Defined.

(** C3: encode writes the entries of the collection in ascending
    byte-lexicographic order of their ids, so that two calls that enumerate
    the same collection in different orders produce the same bytes (and,
    on any sink, the same outcome). *)
Theorem encode_canonical (o1 o2 : MapRange) `{Writer W} (w : W)
    (lnd : LocalNoncesData) :
  (∃ es : list LocalNonceEntry,
     Sorted id_lt es
     ∧ es ≡ₚ entry_of <$> map_to_list (collection lnd)
     ∧ ∀ b : Buffer,
         encodeLocalNoncesData (order := o1) b (PtrLocalNoncesData lnd)
         = (b ++ PutUint16 (uint16 (N.of_nat (length es))) ++ entries_bytes es,
            None))
  ∧ encodeLocalNoncesData (order := o1) w (PtrLocalNoncesData lnd)
    = encodeLocalNoncesData (order := o2) w (PtrLocalNoncesData lnd).
Proof.
  split.
  - exists (sorted_entries (order := o1) lnd).2.
    split; [apply Sorted_sorted_entries|].
    split; [apply sorted_entries_perm|].
    intros b. rewrite encode_Buffer.
    by rewrite sorted_entries_count, length_sorted_entries.
  - unfold encodeLocalNoncesData.
    by rewrite (sorted_entries_order o1 o2).
Qed.

(** ** The round trip *)

(** C2, within the range of the count field: for every collection of at
    most 65535 entries, decoding the bytes that encode produced, with their
    length as the declared length, succeeds, consumes them all and yields
    the same collection, whatever the destination held before. *)
Theorem encode_decode_roundtrip {order : MapRange} (lnd dst : LocalNoncesData) :
  N.of_nat (len (NoncesMap lnd)) < 65536 →
  ∃ b : list byte,
    encodeLocalNoncesData (W := Buffer) [] (PtrLocalNoncesData lnd) = (b, None)
    ∧ decodeLocalNoncesData b (PtrLocalNoncesData dst) (N.of_nat (length b))
      = ([], PtrLocalNoncesData {| NoncesMap := Some (collection lnd) |}, None).
Proof.
  intros Hcount. eexists. split; [apply encode_Buffer|].
  rewrite sorted_entries_count. unfold uint16.
  rewrite (N.mod_small _ 65536 Hcount).
  set (es := (sorted_entries lnd).2).
  assert (length es = len (NoncesMap lnd)) as Hlen
    by apply length_sorted_entries.
  rewrite <- Hlen in *. cbn [app].
  rewrite length_app, length_PutUint16, length_entries_bytes.
  replace (N.of_nat (2 + 98 * length es)) with (2 + N.of_nat (length es) * 98)
    by lia.
  rewrite <- (app_nil_r (entries_bytes es)).
  rewrite decode_entries by done.
  by rewrite (assign_all_map_to_list es (collection lnd))
    by apply sorted_entries_perm.
Qed.

Lemma encode_decode_roundtrip_witness :
  let lnd := {| NoncesMap := Some test_collection |} in
  N.of_nat (len (NoncesMap lnd)) < 65536
  ∧ ∃ b : list byte,
      encodeLocalNoncesData (W := Buffer) (order := range_reversed) []
        (PtrLocalNoncesData lnd)
      = (b, None)
      ∧ decodeLocalNoncesData b (PtrLocalNoncesData NewLocalNoncesData)
          (N.of_nat (length b))
        = ([], PtrLocalNoncesData {| NoncesMap := Some test_collection |}, None).
Proof.
  intros lnd. split; [by vm_compute|].
  apply (encode_decode_roundtrip (order := range_reversed) lnd
           NewLocalNoncesData).
  by vm_compute.
Defined.

(** ** A failed decode and the destination *)

Lemma entries_bytes_app (es1 es2 : list LocalNonceEntry) :
  entries_bytes (es1 ++ es2) = entries_bytes es1 ++ entries_bytes es2.
Proof. apply bind_app. Qed.

(** The entry loop on a source that holds at least the entries it is to
    read. *)
Lemma read_entries_enough (n : nat) (es : list LocalNonceEntry)
    (rest : list byte) (m : gmap Hash Musig2Nonce) :
  (n ≤ length es)%nat →
  read_entries n
    {| reader := entries_bytes es ++ rest; dest := {| NoncesMap := Some m |} |}
  = ({| reader := entries_bytes (drop n es) ++ rest;
        dest := {| NoncesMap := Some (assign_all (take n es) m) |} |}, Ok ()).
Proof.
  intros Hn.
  rewrite <- (take_drop n es) at 1.
  rewrite entries_bytes_app, <- app_assoc.
  rewrite <- (read_entries_ok (take n es)).
  by rewrite length_take, Nat.min_l.
Qed.

(** C1, as the decoder has it: a decode that fails with the too-short or
    the length-mismatch error, or on a short read of the count, leaves the
    destination with the entries it held before (a nil map having become an
    empty one); a decode that fails on a short read among the entries leaves
    the destination holding the entries read in full before the failure,
    assigned in stream order to an empty map. *)
Theorem decode_failure_destination (r r' : list byte) (lnd lnd' : LocalNoncesData)
    (recordLen : N) (err : error) :
  decodeLocalNoncesData r (PtrLocalNoncesData lnd) recordLen
  = (r', PtrLocalNoncesData lnd', Some err) →
  match err with
  | ErrTypeForDecoding _ _ _ => lnd' = initialized lnd
  | _ =>
      ((length r < 2)%nat ∧ lnd' = initialized lnd)
      ∨ ∃ (b0 b1 : byte) (es : list LocalNonceEntry) (tail : list byte),
          r = b0 :: b1 :: entries_bytes es ++ tail
          ∧ recordLen = 2 + Uint16 b0 b1 * 98
          ∧ N.of_nat (length es) < Uint16 b0 b1
          ∧ (length tail < 98)%nat
          ∧ lnd' = {| NoncesMap := Some (assign_all es ∅) |}
  end.
Proof.
  rewrite decode_run. cbv zeta. intros Hrun.
  destruct (N.ltb_spec recordLen 2) as [Hlt|Hge].
  { rewrite decode_into_unfold in Hrun.
    destruct (N.ltb_spec recordLen 2) as [_|?]; [|lia].
    destruct (recordLen =? 0); cbn [fst snd reader dest] in Hrun;
      by simplify_eq. }
  destruct (decide (length r < 2)%nat) as [Hshort|Hlong].
  { rewrite decode_into_unfold in Hrun.
    destruct (N.ltb_spec recordLen 2) as [?|_]; [lia|].
    destruct (ReadFull_short 2 r (initialized lnd) Hshort)
      as (err' & Hread & Herr).
    rewrite Hread in Hrun. cbn [fst snd reader dest] in Hrun. simplify_eq.
    destruct Herr as [-> | ->]; by left. }
  destruct r as [|b0 [|b1 r2]]; [simpl in Hlong; lia..|].
  rewrite decode_into_count in Hrun by done.
  destruct (N.eqb_spec recordLen (2 + Uint16 b0 b1 * 98)) as [Heq|Hne];
    cbn [negb] in Hrun;
    [|cbn [fst snd reader dest] in Hrun; by simplify_eq].
  destruct (N.eqb_spec (Uint16 b0 b1) 0) as [H0|H0];
    [cbn [fst snd reader dest] in Hrun; by simplify_eq|].
  destruct (split_entries r2) as (es & tail & -> & Htail).
  destruct (decide (length es < N.to_nat (Uint16 b0 b1))%nat) as [Hfew|Hmany].
  - destruct (read_entries_short (N.to_nat (Uint16 b0 b1)) es tail ∅ Hfew Htail)
      as (err' & Hloop & Herr).
    rewrite Hloop in Hrun. cbn [fst snd reader dest] in Hrun. simplify_eq.
    assert (N.of_nat (length es) < Uint16 b0 b1) by lia.
    destruct Herr as [-> | ->]; right; exists b0, b1, es, tail;
      repeat split; assumption.
  - exfalso. rewrite read_entries_enough in Hrun by lia.
    cbn [fst snd reader dest] in Hrun. by simplify_eq.
Qed.

(** C1 fails as stated: a destination holding one entry, and a value that
    announces two entries of which the source holds one and ten bytes more.
    The decode fails with a short read, and the destination holds the entry
    that was read instead of the one it held. *)
Lemma decode_failure_changes_destination :
  let held := {[ makeTestTxId x01 := makeTestNonce x01 ]} in
  let read := {| TXID := makeTestTxId x02; Nonce := makeTestNonce x02 |} in
  ∃ left : gmap Hash Musig2Nonce,
    decodeLocalNoncesData
      ([x00; x02] ++ entry_bytes read ++ replicate 10 x00)
      (PtrLocalNoncesData {| NoncesMap := Some held |}) 198
    = ([], PtrLocalNoncesData {| NoncesMap := Some left |},
       Some ErrUnexpectedEOF)
    ∧ left !! makeTestTxId x02 = Some (makeTestNonce x02)
    ∧ left !! makeTestTxId x01 = None
    ∧ left ≠ held.
Proof.
  intros held read. exists {[ makeTestTxId x02 := makeTestNonce x02 ]}.
  split; [by vm_compute|].
  split; [by vm_compute|].
  split; [by vm_compute|].
  intros E. apply (f_equal (lookup (makeTestTxId x01))) in E.
  by vm_compute in E.
Qed.

Lemma decode_failure_destination_witness :
  decodeLocalNoncesData
    ([x00; x02]
     ++ entry_bytes {| TXID := makeTestTxId x02; Nonce := makeTestNonce x02 |}
     ++ replicate 10 x00)
    (PtrLocalNoncesData NewLocalNoncesData) 198
  = ([], PtrLocalNoncesData
           {| NoncesMap := Some {[ makeTestTxId x02 := makeTestNonce x02 ]} |},
     Some ErrUnexpectedEOF)
  ∧ (((length
         ([x00; x02]
          ++ entry_bytes
               {| TXID := makeTestTxId x02; Nonce := makeTestNonce x02 |}
          ++ replicate 10 x00) < 2)%nat
      ∧ {| NoncesMap := Some {[ makeTestTxId x02 := makeTestNonce x02 ]} |}
        = initialized NewLocalNoncesData)
     ∨ ∃ (b0 b1 : byte) (es : list LocalNonceEntry) (tail : list byte),
         [x00; x02]
         ++ entry_bytes
              {| TXID := makeTestTxId x02; Nonce := makeTestNonce x02 |}
         ++ replicate 10 x00
         = b0 :: b1 :: entries_bytes es ++ tail
         ∧ 198 = 2 + Uint16 b0 b1 * 98
         ∧ N.of_nat (length es) < Uint16 b0 b1
         ∧ (length tail < 98)%nat
         ∧ {| NoncesMap := Some {[ makeTestTxId x02 := makeTestNonce x02 ]} |}
           = {| NoncesMap := Some (assign_all es ∅) |}).
Proof.
  assert (decodeLocalNoncesData
    ([x00; x02]
     ++ entry_bytes {| TXID := makeTestTxId x02; Nonce := makeTestNonce x02 |}
     ++ replicate 10 x00)
    (PtrLocalNoncesData NewLocalNoncesData) 198
  = ([], PtrLocalNoncesData
           {| NoncesMap := Some {[ makeTestTxId x02 := makeTestNonce x02 ]} |},
     Some ErrUnexpectedEOF)) as Hrun by (by vm_compute).
  split; [exact Hrun|].
  exact (decode_failure_destination _ _ _ _ _ _ Hrun).
Defined.

(** ** More entries than the count field can tell *)

Lemma txid_number_numbered (i : nat) :
  N.of_nat i < 65536 → txid_number (numbered_txid i) = N.of_nat i.
Proof.
  intros Hi. unfold txid_number, numbered_txid. by apply Uint16_PutUint16.
Qed.

Lemma NoDup_numbered (n : nat) :
  N.of_nat n ≤ 65536 → NoDup (numbered_txid <$> seq 0 n).
Proof.
  intros Hn. apply NoDup_fmap_2_strong; [|apply NoDup_seq].
  intros i j Hi%elem_of_seq Hj%elem_of_seq E.
  apply (f_equal txid_number) in E.
  rewrite !txid_number_numbered in E by lia. lia.
Qed.

Lemma size_numbered_collection (n : nat) :
  N.of_nat n ≤ 65536 → size (numbered_collection n) = n.
Proof.
  intros Hn. unfold numbered_collection.
  rewrite map_size_list_to_map.
  - by rewrite length_fmap, length_seq.
  - rewrite <- list_fmap_compose. by apply NoDup_numbered.
Qed.

(** With 65536 entries the count field wraps to 0: encode reports no error
    and writes 00 00 in front of the 65536 entries. *)
Lemma encode_65536 {order : MapRange} (lnd : LocalNoncesData) :
  N.of_nat (len (NoncesMap lnd)) = 65536 →
  ∃ es : list LocalNonceEntry,
    encodeLocalNoncesData (W := Buffer) [] (PtrLocalNoncesData lnd)
    = (x00 :: x00 :: entries_bytes es, None)
    ∧ N.of_nat (length es) = 65536.
Proof.
  intros Hlen. exists (sorted_entries lnd).2. split.
  - rewrite encode_Buffer, sorted_entries_count, Hlen. done.
  - by rewrite length_sorted_entries.
Qed.

(** Any encoder error is an error that a [Write] of the sink returned. *)
Lemma encode_error_from_sink `{Writer W} {order : MapRange} (w w' : W)
    (lnd : LocalNoncesData) (err : error) :
  encodeLocalNoncesData w (PtrLocalNoncesData lnd) = (w', Some err) →
  ∃ w0 p, Write w0 p = (w', Some err).
Proof.
  unfold encodeLocalNoncesData.
  destruct (sorted_entries lnd) as [numEntries sortedEntries].
  destruct (Write w (PutUint16 numEntries)) as [w1 [e1|]] eqn:E1.
  - intros [= <- <-]. eauto.
  - apply write_entries_error.
Qed.

(** C9: on a collection of 65536 entries encode does not fail: into a
    buffer it returns no error, and the bytes it has written are the count
    field 00 00 followed by all 65536 entries, which the decoder rejects. *)
Theorem encode_count_wraps_at_65536 :
  let lnd := {| NoncesMap := Some (numbered_collection (N.to_nat 65536)) |} in
  N.of_nat (len (NoncesMap lnd)) = 65536
  ∧ ∃ es : list LocalNonceEntry,
      encodeLocalNoncesData (W := Buffer) [] (PtrLocalNoncesData lnd)
      = (x00 :: x00 :: entries_bytes es, None)
      ∧ N.of_nat (length es) = 65536
      ∧ RecordLength lnd = 6422530
      ∧ LengthMismatch
          (decodeLocalNoncesData (x00 :: x00 :: entries_bytes es)
             (PtrLocalNoncesData NewLocalNoncesData) 6422530).2.
Proof.
  intros lnd.
  assert (N.of_nat (len (NoncesMap lnd)) = 65536) as Hlen.
  { unfold lnd, len. cbn [NoncesMap]. rewrite size_numbered_collection; lia. }
  clearbody lnd.
  split; [done|].
  destruct (encode_65536 lnd Hlen) as (es & Henc & Hes).
  exists es. split; [done|]. split; [done|]. split.
  - unfold RecordLength. rewrite decide_False.
    + unfold uint64, HashSize, PubNonceSize.
      change (N.of_nat (32 + 66)) with 98. rewrite Hlen. done.
    + intros [Hz|Hz]; [rewrite Hz in Hlen|rewrite Hz in Hlen]; done.
  - rewrite decode_mismatch; [by eexists _, _ | lia |].
    change (Uint16 x00 x00) with 0. lia.
Qed.

(** C2 fails beyond the range of the count field: the bytes that encode
    produces for a collection of 65536 entries carry the count 0, and
    decoding them with their length as the declared length fails. *)
Lemma roundtrip_fails_at_65536 :
  let lnd := {| NoncesMap := Some (numbered_collection (N.to_nat 65536)) |} in
  ∃ b : list byte,
    encodeLocalNoncesData (W := Buffer) [] (PtrLocalNoncesData lnd) = (b, None)
    ∧ decodeLocalNoncesData b (PtrLocalNoncesData NewLocalNoncesData)
        (N.of_nat (length b))
      = (drop 2 b, PtrLocalNoncesData NewLocalNoncesData,
         Some (ErrTypeForDecoding
                 "lnwire.LocalNoncesData (record length mismatch)" 6422530 2)).
Proof.
  intros lnd.
  assert (N.of_nat (len (NoncesMap lnd)) = 65536) as Hlen.
  { unfold lnd, len. cbn [NoncesMap]. rewrite size_numbered_collection; lia. }
  clearbody lnd.
  destruct (encode_65536 lnd Hlen) as (es & Henc & Hes).
  exists (x00 :: x00 :: entries_bytes es). split; [done|].
  cbn [length drop]. rewrite length_entries_bytes.
  replace (N.of_nat (S (S (98 * length es)))) with 6422530 by lia.
  rewrite decode_mismatch; [done | lia |].
  change (Uint16 x00 x00) with 0. lia.
Qed.

(** ** The scenarios of the test suite *)

(** Three entries, enumerated in two different orders, are written in
    ascending order of id after the count 00 03. *)
Example encode_three_entries :
  encodeLocalNoncesData (W := Buffer) (order := range_to_list) []
    (PtrLocalNoncesData {| NoncesMap := Some test_collection |})
  = ([x00; x03]
     ++ entries_bytes [makeTestEntry x01; makeTestEntry x02; makeTestEntry x03],
     None)
  ∧ encodeLocalNoncesData (W := Buffer) (order := range_reversed) []
      (PtrLocalNoncesData {| NoncesMap := Some test_collection |})
    = ([x00; x03]
       ++ entries_bytes [makeTestEntry x01; makeTestEntry x02; makeTestEntry x03],
       None).
Proof. split; by vm_compute. Qed.

(** The two orders do enumerate the entries differently. *)
Example range_orders_differ :
  range (MapRange := range_to_list) test_collection
  ≠ range (MapRange := range_reversed) test_collection.
Proof. by vm_compute. Qed.

(** Its 296 bytes decode into the three entries. *)
Example decode_three_entries :
  decodeLocalNoncesData
    ([x00; x03]
     ++ entries_bytes [makeTestEntry x01; makeTestEntry x02; makeTestEntry x03])
    (PtrLocalNoncesData NewLocalNoncesData) 296
  = ([], PtrLocalNoncesData {| NoncesMap := Some test_collection |}, None).
Proof. by vm_compute. Qed.

(** A nil map and an empty map are both written as the count 00 00. *)
Example encode_nil_and_empty :
  encodeLocalNoncesData (W := Buffer) []
    (PtrLocalNoncesData {| NoncesMap := None |}) = ([x00; x00], None)
  ∧ encodeLocalNoncesData (W := Buffer) []
      (PtrLocalNoncesData NewLocalNoncesData) = ([x00; x00], None).
Proof. split; by vm_compute. Qed.

(** The count announces an entry that the declared length leaves no room
    for. *)
Example decode_mismatch_count_1_length_2 :
  decodeLocalNoncesData [x00; x01] (PtrLocalNoncesData NewLocalNoncesData) 2
  = ([], PtrLocalNoncesData NewLocalNoncesData,
     Some (ErrTypeForDecoding
             "lnwire.LocalNoncesData (record length mismatch)" 2 100)).
Proof. by vm_compute. Qed.

(** One entry in full, but a declared length of 101 instead of 100. *)
Example decode_mismatch_count_1_length_101 :
  decodeLocalNoncesData ([x00; x01] ++ replicate 98 x00)
    (PtrLocalNoncesData NewLocalNoncesData) 101
  = (replicate 98 x00, PtrLocalNoncesData NewLocalNoncesData,
     Some (ErrTypeForDecoding
             "lnwire.LocalNoncesData (record length mismatch)" 101 100)).
Proof. by vm_compute. Qed.

(** A sink with room for the count only: the error of its [Write] comes
    back from the encoder as it is. *)
Example encode_into_full_sink :
  encodeLocalNoncesData (order := range_to_list)
    {| sink_bytes := []; sink_room := 2 |}
    (PtrLocalNoncesData {| NoncesMap := Some test_collection |})
  = ({| sink_bytes := [x00; x03]; sink_room := 0 |},
     Some (ErrSink "short write")).
Proof. by vm_compute. Qed.

(** A value that is not a [*LocalNoncesData] is refused by both. *)
Example other_value_refused :
  encodeLocalNoncesData (W := Buffer) [] OtherValue
  = ([], Some (ErrTypeForEncoding "*lnwire.LocalNoncesData"))
  ∧ decodeLocalNoncesData [x00; x00] OtherValue 2
    = ([x00; x00], OtherValue,
       Some (ErrTypeForDecoding "*lnwire.LocalNoncesData" 2 0)).
Proof. by split. Qed.

(** * Further properties of the codec *)

(** ** Every outcome of the decoder *)

Lemma ReadFull_short_error (n : nat) (r : list byte) (d : LocalNoncesData) :
  (length r < n)%nat →
  ReadFull n {| reader := r; dest := d |}
  = ({| reader := []; dest := d |},
     Err (match r with [] => EOF | _ :: _ => ErrUnexpectedEOF end)).
Proof. intros Hr. unfold ReadFull; simpl. by rewrite decide_False by lia. Qed.

(** The error of the entry loop on a source that ends early: [io.EOF] when
    the source ends where a read starts (before an id or before a nonce),
    [io.ErrUnexpectedEOF] when it ends inside an id or a nonce. *)
Lemma read_entries_truncated (n : nat) (es : list LocalNonceEntry)
    (tail : list byte) (m : gmap Hash Musig2Nonce) :
  (length es < n)%nat → (length tail < 98)%nat →
  read_entries n
    {| reader := entries_bytes es ++ tail; dest := {| NoncesMap := Some m |} |}
  = ({| reader := []; dest := {| NoncesMap := Some (assign_all es m) |} |},
     Err (if decide (length tail = 0 ∨ length tail = 32)%nat
          then EOF else ErrUnexpectedEOF)).
Proof.
  revert n m. induction es as [|e es IH]; intros [|n] m Hn Ht; simpl in Hn;
    try lia.
  - cbn [read_entries]. unfold mbind, Dec_bind. cbn [entries_bytes mbind app].
    change (entries_bytes [] ++ tail) with tail.
    destruct (decide (length tail < HashSize)%nat) as [Hshort|Hlong].
    + rewrite ReadFull_short_error by done. unfold HashSize in Hshort.
      destruct tail; simpl in *; [done|].
      rewrite decide_False; [done | lia].
    + unfold HashSize in Hlong.
      set (txid := fill_array HashSize (take 32 tail)).
      assert (tail = vec_to_list txid ++ drop 32 tail) as Htail.
      { unfold txid. rewrite vec_to_list_fill_array, take_drop; [done|].
        rewrite length_take. unfold HashSize. lia. }
      rewrite Htail at 1. rewrite ReadFull_app.
      rewrite ReadFull_short_error
        by (rewrite length_drop; unfold PubNonceSize; lia).
      assert (length (drop 32 tail) = (length tail - 32)%nat) as Hdrop
        by apply length_drop.
      destruct (drop 32 tail) as [|b rest]; simpl in Hdrop.
      * rewrite decide_True; [done | lia].
      * rewrite decide_False; [done | lia].
  - rewrite entries_bytes_cons. unfold entry_bytes. rewrite <- !app_assoc.
    cbn [read_entries]. unfold mbind, Dec_bind.
    rewrite ReadFull_app, ReadFull_app. simpl. apply IH; lia.
Qed.

(** A count followed by at least that many entries. *)
Lemma decode_counted_entries (b0 b1 : byte) (es : list LocalNonceEntry)
    (rest : list byte) (lnd : LocalNoncesData) :
  Uint16 b0 b1 = N.of_nat (length es) →
  decodeLocalNoncesData (b0 :: b1 :: entries_bytes es ++ rest)
    (PtrLocalNoncesData lnd) (2 + N.of_nat (length es) * 98)
  = (rest, PtrLocalNoncesData {| NoncesMap := Some (assign_all es ∅) |}, None).
Proof.
  intros Hcount. rewrite decode_run, decode_into_count by lia.
  rewrite Hcount, N.eqb_refl. cbn [negb].
  destruct (N.eqb_spec (N.of_nat (length es)) 0) as [H0|H0].
  - destruct es; [done | simpl in H0; lia].
  - by rewrite Nat2N.id, read_entries_ok.
Qed.

(** A count followed by fewer entries than it announces. *)
Lemma decode_truncated (b0 b1 : byte) (es : list LocalNonceEntry)
    (tail : list byte) (lnd : LocalNoncesData) :
  N.of_nat (length es) < Uint16 b0 b1 → (length tail < 98)%nat →
  decodeLocalNoncesData (b0 :: b1 :: entries_bytes es ++ tail)
    (PtrLocalNoncesData lnd) (2 + Uint16 b0 b1 * 98)
  = ([], PtrLocalNoncesData {| NoncesMap := Some (assign_all es ∅) |},
     Some (if decide (length tail = 0 ∨ length tail = 32)%nat
           then EOF else ErrUnexpectedEOF)).
Proof.
  intros Hfew Htail. rewrite decode_run, decode_into_count by lia.
  rewrite N.eqb_refl. cbn [negb].
  destruct (N.eqb_spec (Uint16 b0 b1) 0) as [H0|H0]; [lia|].
  by rewrite read_entries_truncated by lia.
Qed.

(** The source is too short for the count. *)
Lemma decode_short_count (r : list byte) (lnd : LocalNoncesData)
    (recordLen : N) :
  2 ≤ recordLen → (length r < 2)%nat →
  decodeLocalNoncesData r (PtrLocalNoncesData lnd) recordLen
  = ([], PtrLocalNoncesData (initialized lnd),
     Some (match r with [] => EOF | _ :: _ => ErrUnexpectedEOF end)).
Proof.
  intros Hlen Hr. rewrite decode_run, decode_into_unfold.
  destruct (N.ltb_spec recordLen 2) as [?|_]; [lia|].
  by rewrite ReadFull_short_error.
Qed.

(** The six ways a call of the decoder on a [*LocalNoncesData] can go. *)
Lemma decode_cases (r : list byte) (lnd : LocalNoncesData) (recordLen : N) :
  let out := decodeLocalNoncesData r (PtrLocalNoncesData lnd) recordLen in
  (recordLen = 0
   ∧ out = (r, PtrLocalNoncesData {| NoncesMap := Some ∅ |}, None))
  ∨ (recordLen = 1
     ∧ out = (r, PtrLocalNoncesData (initialized lnd),
              Some (ErrTypeForDecoding
                 "lnwire.LocalNoncesData (record too short for numEntries)"
                 recordLen 2)))
  ∨ (2 ≤ recordLen ∧ (length r < 2)%nat
     ∧ out = ([], PtrLocalNoncesData (initialized lnd),
              Some (match r with [] => EOF | _ :: _ => ErrUnexpectedEOF end)))
  ∨ (∃ b0 b1 r2,
       r = b0 :: b1 :: r2 ∧ 2 ≤ recordLen
       ∧ recordLen ≠ 2 + Uint16 b0 b1 * 98
       ∧ out = (r2, PtrLocalNoncesData (initialized lnd),
                Some (ErrTypeForDecoding
                        "lnwire.LocalNoncesData (record length mismatch)"
                        recordLen (2 + Uint16 b0 b1 * 98))))
  ∨ (∃ b0 b1 es rest,
       r = b0 :: b1 :: entries_bytes es ++ rest
       ∧ Uint16 b0 b1 = N.of_nat (length es)
       ∧ recordLen = 2 + N.of_nat (length es) * 98
       ∧ out = (rest,
                PtrLocalNoncesData {| NoncesMap := Some (assign_all es ∅) |},
                None))
  ∨ (∃ b0 b1 es tail,
       r = b0 :: b1 :: entries_bytes es ++ tail
       ∧ N.of_nat (length es) < Uint16 b0 b1 ∧ (length tail < 98)%nat
       ∧ recordLen = 2 + Uint16 b0 b1 * 98
       ∧ out = ([],
                PtrLocalNoncesData {| NoncesMap := Some (assign_all es ∅) |},
                Some (if decide (length tail = 0 ∨ length tail = 32)%nat
                      then EOF else ErrUnexpectedEOF))).
Proof.
  intros out. unfold out. clear out.
  destruct (N.eqb_spec recordLen 0) as [->|Hnz].
  { left. split; [done|]. by rewrite decode_run, decode_into_unfold. }
  destruct (N.ltb_spec recordLen 2) as [Hlt|Hge].
  { right; left. split; [lia|]. rewrite decode_run, decode_into_unfold.
    destruct (N.ltb_spec recordLen 2) as [_|?]; [|lia].
    by destruct (N.eqb_spec recordLen 0). }
  destruct (decide (length r < 2)%nat) as [Hshort|Hlong].
  { do 2 right; left. by rewrite decode_short_count. }
  destruct r as [|b0 [|b1 r2]]; [simpl in Hlong; lia..|].
  destruct (N.eq_dec recordLen (2 + Uint16 b0 b1 * 98)) as [Heq|Hne].
  2:{ do 3 right; left. exists b0, b1, r2. by rewrite decode_mismatch. }
  destruct (split_entries r2) as (es & tail & -> & Htail).
  destruct (decide (length es < N.to_nat (Uint16 b0 b1))%nat) as [Hfew|Hmany].
  - do 5 right. exists b0, b1, es, tail. subst recordLen.
    rewrite decode_truncated by lia. repeat split; [lia | done].
  - do 4 right; left.
    exists b0, b1, (take (N.to_nat (Uint16 b0 b1)) es),
      (entries_bytes (drop (N.to_nat (Uint16 b0 b1)) es) ++ tail).
    assert (N.of_nat (length (take (N.to_nat (Uint16 b0 b1)) es))
            = Uint16 b0 b1) as Hlen by (rewrite length_take; lia).
    rewrite app_assoc, <- entries_bytes_app, take_drop.
    split; [done|]. split; [done|]. split; [by rewrite Hlen|].
    rewrite <- (take_drop (N.to_nat (Uint16 b0 b1)) es) at 1.
    rewrite entries_bytes_app, <- app_assoc. subst recordLen.
    rewrite <- Hlen at 3. by apply decode_counted_entries.
Qed.

(** X1: the decoder never takes more than the declared length from the
    source: what it returns of the source is what is left after a prefix of
    at most [recordLen] bytes, and after a successful call of exactly
    [recordLen] bytes. *)
Theorem decode_consumes_at_most (r : list byte) (val : Value) (recordLen : N) :
  ∃ consumed : list byte,
    r = consumed ++ (decodeLocalNoncesData r val recordLen).1.1
    ∧ N.of_nat (length consumed) ≤ recordLen
    ∧ ((decodeLocalNoncesData r val recordLen).2 = None →
       N.of_nat (length consumed) = recordLen).
Proof.
  destruct val as [lnd|]; [|exists []; repeat split; [simpl; lia | done]].
  destruct (decode_cases r lnd recordLen)
    as [(-> & ->)|[(-> & ->)|[(Hlen & Hr & ->)|[(b0 & b1 & r2 & -> & Hlen & _ & ->)
       |[(b0 & b1 & es & rest & -> & _ & -> & ->)
        |(b0 & b1 & es & tail & -> & Hfew & Htail & -> & ->)]]]]];
    cbn [fst snd].
  - exists []. by repeat split.
  - exists []. repeat split; [simpl; lia | done].
  - exists r. rewrite app_nil_r. repeat split; [lia | done].
  - exists [b0; b1]. repeat split; [simpl; lia | done].
  - exists (b0 :: b1 :: entries_bytes es).
    assert (N.of_nat (length (b0 :: b1 :: entries_bytes es))
            = 2 + N.of_nat (length es) * 98) as Hc
      by (cbn [length]; rewrite length_entries_bytes; lia).
    repeat split; [lia | done].
  - exists (b0 :: b1 :: entries_bytes es ++ tail). rewrite app_nil_r.
    repeat split; [|by destruct (decide _)].
    cbn [length]. rewrite length_app, length_entries_bytes. lia.
Qed.

(** X2: the decoder accepts exactly the well-formed values: it returns no
    error if and only if the declared length is 0, or the source starts
    with a count and that many whole entries and the declared length is
    2 + count * 98. *)
Theorem decode_succeeds_iff (r : list byte) (lnd : LocalNoncesData)
    (recordLen : N) :
  (decodeLocalNoncesData r (PtrLocalNoncesData lnd) recordLen).2 = None
  ↔ recordLen = 0
    ∨ ∃ (b0 b1 : byte) (es : list LocalNonceEntry) (rest : list byte),
        r = b0 :: b1 :: entries_bytes es ++ rest
        ∧ Uint16 b0 b1 = N.of_nat (length es)
        ∧ recordLen = 2 + N.of_nat (length es) * 98.
Proof.
  split.
  - destruct (decode_cases r lnd recordLen)
      as [(-> & ->)|[(-> & ->)|[(Hlen & Hr & ->)
         |[(b0 & b1 & r2 & -> & Hlen & _ & ->)
          |[(b0 & b1 & es & rest & -> & Hc & -> & ->)
           |(b0 & b1 & es & tail & -> & Hfew & Htail & -> & ->)]]]]];
      cbn [snd]; try done.
    + by left.
    + intros _. right. by exists b0, b1, es, rest.
  - intros [->|(b0 & b1 & es & rest & -> & Hc & ->)].
    + by rewrite decode_run, decode_into_unfold.
    + by rewrite decode_counted_entries.
Qed.

(** X3: decoding replaces the destination wholesale: what is left of the
    source and the error do not depend on what the destination held, and
    after a successful call neither does the destination. *)
Theorem decode_ignores_destination (r : list byte) (lnd1 lnd2 : LocalNoncesData)
    (recordLen : N) :
  let out1 := decodeLocalNoncesData r (PtrLocalNoncesData lnd1) recordLen in
  let out2 := decodeLocalNoncesData r (PtrLocalNoncesData lnd2) recordLen in
  out1.1.1 = out2.1.1 ∧ out1.2 = out2.2 ∧ (out1.2 = None → out1 = out2).
Proof.
  cbv zeta. rewrite !decode_run, !decode_into_unfold. cbv zeta.
  destruct (recordLen <? 2).
  { by destruct (recordLen =? 0). }
  unfold ReadFull. cbn [reader dest].
  case_decide; [|done].
  destruct (negb _); [done|].
  by destruct (_ =? 0).
Qed.

(** X4: after any call of the decoder on a [*LocalNoncesData] the
    destination's map is not nil, whatever it was before and however the
    call ended. *)
Theorem decode_map_never_nil (r : list byte) (lnd : LocalNoncesData)
    (recordLen : N) :
  ∃ m : gmap Hash Musig2Nonce,
    (decodeLocalNoncesData r (PtrLocalNoncesData lnd) recordLen).1.2
    = PtrLocalNoncesData {| NoncesMap := Some m |}.
Proof.
  destruct (decode_cases r lnd recordLen)
    as [(_ & ->)|[(_ & ->)|[(_ & _ & ->)|[(b0 & b1 & r2 & _ & _ & _ & ->)
       |[(b0 & b1 & es & rest & _ & _ & _ & ->)
        |(b0 & b1 & es & tail & _ & _ & _ & _ & ->)]]]]];
    by eexists.
Qed.

(** X5: which read error a truncated value gives: when the source ends
    after fewer entries than the count announces, the decoder fails with
    [io.EOF] if the source ends exactly before an id or exactly between an
    id and its nonce, and with [io.ErrUnexpectedEOF] if it ends inside an id
    or a nonce; the source is drained either way. *)
Theorem decode_truncated_error (count : N) (es : list LocalNonceEntry)
    (tail : list byte) (lnd : LocalNoncesData) :
  count < 65536 → N.of_nat (length es) < count → (length tail < 98)%nat →
  decodeLocalNoncesData (PutUint16 count ++ entries_bytes es ++ tail)
    (PtrLocalNoncesData lnd) (2 + count * 98)
  = ([], PtrLocalNoncesData {| NoncesMap := Some (assign_all es ∅) |},
     Some (if decide (length tail = 0 ∨ length tail = 32)%nat
           then EOF else ErrUnexpectedEOF)).
Proof.
  intros Hcount Hfew Htail. unfold PutUint16. cbn [app].
  pose proof (decode_truncated (byte_of_N (N.shiftr count 8))
                (byte_of_N count) es tail lnd) as Hdec.
  rewrite Uint16_PutUint16 in Hdec by done. by apply Hdec.
Qed.

Lemma decode_truncated_error_witness :
  2 < 65536
  ∧ N.of_nat (length [makeTestEntry x01]) < 2
  ∧ (length (vec_to_list (makeTestTxId x02)) < 98)%nat
  ∧ decodeLocalNoncesData
      (PutUint16 2 ++ entries_bytes [makeTestEntry x01]
       ++ vec_to_list (makeTestTxId x02))
      (PtrLocalNoncesData NewLocalNoncesData) (2 + 2 * 98)
    = ([], PtrLocalNoncesData
             {| NoncesMap := Some (assign_all [makeTestEntry x01] ∅) |},
       Some EOF).
Proof.
  split; [lia|]. split; [by vm_compute|]. split; [vm_compute; lia|].
  apply (decode_truncated_error 2 [makeTestEntry x01]
           (vec_to_list (makeTestTxId x02)) NewLocalNoncesData);
    [lia | by vm_compute | vm_compute; lia].
Defined.

(** ** The encoder, the record length and the sink *)

Lemma RecordLength_value (lnd : LocalNoncesData) :
  2 + N.of_nat (len (NoncesMap lnd)) * 98 < 18446744073709551616 →
  RecordLength lnd = 2 + N.of_nat (len (NoncesMap lnd)) * 98.
Proof.
  intros Hfit. unfold RecordLength. case_decide as Hnil.
  - destruct Hnil as [-> | ->]; done.
  - unfold uint64, HashSize, PubNonceSize.
    change (N.of_nat (32 + 66)) with 98. by apply N.mod_small.
Qed.

(** X6: the record length function announces what the encoder writes:
    encoding into a buffer appends exactly [RecordLength] bytes, for a
    collection of any size, also one whose count does not fit the count
    field (as long as the length itself fits in 64 bits). *)
Theorem encode_writes_RecordLength {order : MapRange} (b : Buffer)
    (lnd : LocalNoncesData) :
  2 + N.of_nat (len (NoncesMap lnd)) * 98 < 18446744073709551616 →
  N.of_nat (length (encodeLocalNoncesData b (PtrLocalNoncesData lnd)).1)
  = N.of_nat (length b) + RecordLength lnd.
Proof.
  intros Hfit. rewrite RecordLength_value by done.
  rewrite encode_Buffer. cbn [fst].
  rewrite !length_app, length_PutUint16, length_entries_bytes,
    length_sorted_entries.
  lia.
Qed.

Lemma encode_writes_RecordLength_witness :
  let lnd := {| NoncesMap := Some test_collection |} in
  2 + N.of_nat (len (NoncesMap lnd)) * 98 < 18446744073709551616
  ∧ N.of_nat
      (length (encodeLocalNoncesData (order := range_to_list) [x00]
                 (PtrLocalNoncesData lnd)).1)
    = N.of_nat (length [x00]) + RecordLength lnd.
Proof.
  intros lnd. split; [by vm_compute|].
  apply (encode_writes_RecordLength (order := range_to_list) [x00] lnd).
  by vm_compute.
Defined.

(** An error of the entry loop comes from writing the id or the nonce of
    one of the entries. *)
Lemma write_entries_error_at `{Writer W} (w w' : W)
    (es : list LocalNonceEntry) (err : error) :
  write_entries w es = (w', Some err) →
  ∃ w0 e, e ∈ es
    ∧ (Write w0 (vec_to_list (TXID e)) = (w', Some err)
       ∨ Write w0 (vec_to_list (Nonce e)) = (w', Some err)).
Proof.
  revert w. induction es as [|e es IH]; intros w; simpl; [done|].
  destruct (Write w (vec_to_list (TXID e))) as [w1 [e1|]] eqn:E1.
  { intros [= <- <-]. exists w, e. split; [left | by left]. }
  destruct (Write w1 (vec_to_list (Nonce e))) as [w2 [e2|]] eqn:E2.
  { intros [= <- <-]. exists w1, e. split; [left | by right]. }
  intros (w0 & e' & He' & Hw)%IH. exists w0, e'. split; [by right | done].
Qed.

(** X7: the encoder has no error of its own for a [*LocalNoncesData]: an
    error it returns, and the sink it returns with it, are those returned
    by a [Write] of the sink, called on the count, on the id of an entry of
    the collection or on its nonce. *)
Theorem encode_fails_only_on_write `{Writer W} {order : MapRange} (w w' : W)
    (lnd : LocalNoncesData) (err : error) :
  encodeLocalNoncesData w (PtrLocalNoncesData lnd) = (w', Some err) →
  ∃ (w0 : W) (p : list byte),
    Write w0 p = (w', Some err)
    ∧ (p = PutUint16 (uint16 (N.of_nat (len (NoncesMap lnd))))
       ∨ ∃ (txid : Hash) (nonce : Musig2Nonce),
           collection lnd !! txid = Some nonce
           ∧ (p = vec_to_list txid ∨ p = vec_to_list nonce)).
Proof.
  unfold encodeLocalNoncesData.
  pose proof (sorted_entries_count lnd) as Hcount.
  pose proof (sorted_entries_perm lnd) as Hperm.
  destruct (sorted_entries lnd) as [numEntries sortedEntries].
  cbn [fst snd] in Hcount, Hperm. subst numEntries.
  destruct (Write w (PutUint16 _)) as [w1 [e1|]] eqn:E1.
  { intros [= <- <-]. exists w, (PutUint16 (uint16 (N.of_nat (len (NoncesMap lnd))))).
    split; [done | by left]. }
  intros (w0 & e & He & Hw)%write_entries_error_at.
  rewrite Hperm in He. apply list_elem_of_fmap in He as ([k v] & -> & Hkv).
  apply elem_of_map_to_list in Hkv.
  destruct Hw as [Hw|Hw]; eexists w0, _; (split; [exact Hw|]); right;
    exists k, v; auto.
Qed.

Lemma encode_fails_only_on_write_witness :
  let lnd := {| NoncesMap := Some test_collection |} in
  let full := {| sink_bytes := [x00; x03]; sink_room := 0 |} in
  encodeLocalNoncesData (order := range_to_list)
    {| sink_bytes := []; sink_room := 2 |} (PtrLocalNoncesData lnd)
  = (full, Some (ErrSink "short write"))
  ∧ ∃ (w0 : LimitedSink) (p : list byte),
      Write w0 p = (full, Some (ErrSink "short write"))
      ∧ (p = PutUint16 (uint16 (N.of_nat (len (NoncesMap lnd))))
         ∨ ∃ (txid : Hash) (nonce : Musig2Nonce),
             collection lnd !! txid = Some nonce
             ∧ (p = vec_to_list txid ∨ p = vec_to_list nonce)).
Proof.
  intros lnd full.
  assert (encodeLocalNoncesData (order := range_to_list)
            {| sink_bytes := []; sink_room := 2 |} (PtrLocalNoncesData lnd)
          = (full, Some (ErrSink "short write"))) as Henc by (by vm_compute).
  split; [exact Henc|].
  exact (encode_fails_only_on_write _ _ _ _ Henc).
Defined.

(** X8: the order in which the encoder writes the entries is fixed by the
    contract of [sort.Slice] alone: any arrangement of the collection's
    entries in which no entry is [less] than an earlier one is the one the
    encoder writes. *)
Theorem sorted_entries_determined {order : MapRange} (lnd : LocalNoncesData)
    (s : list LocalNonceEntry) :
  s ≡ₚ entry_of <$> map_to_list (collection lnd) →
  StronglySorted (λ a b, entry_less b a = false) s →
  (sorted_entries lnd).2 = s.
Proof.
  intros Hperm Hsorted. unfold sorted_entries, collection in *.
  destruct (NoncesMap lnd) as [m|]; simpl in Hperm.
  - case_decide as Hm; cbn [snd].
    + symmetry. apply sort_Slice_unique; [apply NoDup_range | | done].
      by rewrite Hperm, range_perm.
    + assert (m = ∅) as -> by (apply map_size_empty_iff; lia).
      rewrite map_to_list_empty in Hperm. symmetry.
      by apply Permutation_nil_r.
  - rewrite map_to_list_empty in Hperm. symmetry.
    by apply Permutation_nil_r.
Qed.

Lemma sorted_entries_determined_witness :
  let lnd := {| NoncesMap := Some test_collection |} in
  let s := [makeTestEntry x01; makeTestEntry x02; makeTestEntry x03] in
  s ≡ₚ entry_of <$> map_to_list (collection lnd)
  ∧ StronglySorted (λ a b, entry_less b a = false) s
  ∧ (sorted_entries (order := range_reversed) lnd).2 = s.
Proof.
  intros lnd s.
  assert (s ≡ₚ entry_of <$> map_to_list (collection lnd)) as Hperm.
  { rewrite <- (sorted_entries_perm (order := range_to_list) lnd).
    by vm_compute. }
  assert (StronglySorted (λ a b, entry_less b a = false) s) as Hsorted.
  { repeat constructor; by vm_compute. }
  split; [exact Hperm|]. split; [exact Hsorted|].
  exact (sorted_entries_determined (order := range_reversed) lnd s
           Hperm Hsorted).
Defined.

(** ** What a decoded collection holds *)

Lemma assign_all_is_Some (es : list LocalNonceEntry) (txid : Hash) :
  is_Some (assign_all es ∅ !! txid) ↔ txid ∈ TXID <$> es.
Proof.
  induction es as [|e es IH] using rev_ind.
  - unfold assign_all. simpl. rewrite lookup_empty, elem_of_nil.
    split; [by intros [? ?] | done].
  - rewrite assign_all_snoc, fmap_app, elem_of_app, lookup_insert_is_Some', IH.
    simpl. rewrite list_elem_of_singleton.
    split; (intros [Heq|Hin]; [by right | by left]).
Qed.

Lemma assign_all_size (es : list LocalNonceEntry) :
  (size (assign_all es ∅) ≤ length es)%nat
  ∧ (size (assign_all es ∅) = length es ↔ NoDup (TXID <$> es)).
Proof.
  induction es as [|e es [IHle IHeq]] using rev_ind.
  - unfold assign_all. simpl. rewrite map_size_empty.
    split; [lia|]. split; [constructor | done].
  - rewrite assign_all_snoc, fmap_app, length_app, map_size_insert. simpl.
    rewrite NoDup_app.
    destruct (assign_all es ∅ !! TXID e) as [v|] eqn:Hlook; simpl.
    + split; [lia|]. split; [lia|].
      intros (_ & Hfresh & _). exfalso.
      apply (Hfresh (TXID e)); [|by left].
      apply assign_all_is_Some. by rewrite Hlook.
    + split; [lia|].
      assert (TXID e ∉ TXID <$> es) as Hnotin.
      { rewrite <- assign_all_is_Some, Hlook. by intros [? ?]. }
      split.
      * intros Hsize. split; [apply IHeq; lia|].
        split; [|apply NoDup_singleton].
        intros k Hk [->|[]%elem_of_nil]%elem_of_cons. done.
      * intros (Hnd & _ & _). apply IHeq in Hnd. lia.
Qed.

(** X9: what a well-formed value decodes into: the ids of the decoded
    collection are exactly the ids in the stream, so it never has more
    entries than the count announces, and it has as many exactly when no
    id is repeated. *)
Theorem decode_entry_count (es : list LocalNonceEntry) (rest : list byte)
    (lnd : LocalNoncesData) :
  N.of_nat (length es) < 65536 →
  ∃ m : gmap Hash Musig2Nonce,
    decodeLocalNoncesData
      (PutUint16 (N.of_nat (length es)) ++ entries_bytes es ++ rest)
      (PtrLocalNoncesData lnd) (2 + N.of_nat (length es) * 98)
    = (rest, PtrLocalNoncesData {| NoncesMap := Some m |}, None)
    ∧ (∀ txid, is_Some (m !! txid) ↔ txid ∈ TXID <$> es)
    ∧ (size m ≤ length es)%nat
    ∧ (size m = length es ↔ NoDup (TXID <$> es)).
Proof.
  intros Hlen. exists (assign_all es ∅).
  split; [by apply decode_entries|].
  split; [apply assign_all_is_Some|]. apply assign_all_size.
Qed.

Lemma decode_entry_count_witness :
  let es := [makeTestEntry x02; makeTestEntry x01; makeTestEntry x02] in
  N.of_nat (length es) < 65536
  ∧ ∃ m : gmap Hash Musig2Nonce,
      decodeLocalNoncesData
        (PutUint16 3 ++ entries_bytes es ++ [xff])
        (PtrLocalNoncesData NewLocalNoncesData) (2 + 3 * 98)
      = ([xff], PtrLocalNoncesData {| NoncesMap := Some m |}, None)
      ∧ (∀ txid, is_Some (m !! txid) ↔ txid ∈ TXID <$> es)
      ∧ (size m ≤ length es)%nat
      ∧ (size m = length es ↔ NoDup (TXID <$> es)).
Proof.
  intros es. split; [by vm_compute|].
  apply (decode_entry_count es [xff] NewLocalNoncesData). by vm_compute.
Defined.

(** ** Decoding what was encoded, and encoding what was decoded *)

(** The bytes of a collection, followed by anything, decode into it. *)
Lemma decode_encoded {order : MapRange} (lnd dst : LocalNoncesData)
    (rest : list byte) :
  N.of_nat (len (NoncesMap lnd)) < 65536 →
  decodeLocalNoncesData
    ((encodeLocalNoncesData (W := Buffer) [] (PtrLocalNoncesData lnd)).1 ++ rest)
    (PtrLocalNoncesData dst) (2 + N.of_nat (len (NoncesMap lnd)) * 98)
  = (rest, PtrLocalNoncesData {| NoncesMap := Some (collection lnd) |}, None).
Proof.
  intros Hcount. rewrite encode_Buffer. cbn [fst app].
  rewrite sorted_entries_count. unfold uint16.
  rewrite (N.mod_small _ 65536 Hcount).
  set (es := (sorted_entries lnd).2).
  assert (length es = len (NoncesMap lnd)) as Hlen
    by apply length_sorted_entries.
  rewrite <- Hlen in *. rewrite <- !app_assoc.
  rewrite decode_entries by done.
  by rewrite (assign_all_map_to_list es (collection lnd))
    by apply sorted_entries_perm.
Qed.

(** X10: the record as the TLV stream frames it: the bytes the encoder
    writes for a collection of at most 65535 entries, followed by the rest
    of the stream and decoded with the length that [Record] announces, give
    back the collection and leave the rest of the stream untouched. *)
Theorem decode_framed_record {order : MapRange} (lnd dst : LocalNoncesData)
    (rest : list byte) :
  N.of_nat (len (NoncesMap lnd)) < 65536 →
  decodeLocalNoncesData
    ((encodeLocalNoncesData (W := Buffer) [] (PtrLocalNoncesData lnd)).1 ++ rest)
    (PtrLocalNoncesData dst) (RecordLength lnd)
  = (rest, PtrLocalNoncesData {| NoncesMap := Some (collection lnd) |}, None).
Proof.
  intros Hcount. rewrite RecordLength_value by lia. by apply decode_encoded.
Qed.

Lemma decode_framed_record_witness :
  let lnd := {| NoncesMap := Some test_collection |} in
  N.of_nat (len (NoncesMap lnd)) < 65536
  ∧ decodeLocalNoncesData
      ((encodeLocalNoncesData (W := Buffer) (order := range_to_list) []
          (PtrLocalNoncesData lnd)).1 ++ [x16; x02; x00; x00])
      (PtrLocalNoncesData {| NoncesMap := None |}) (RecordLength lnd)
    = ([x16; x02; x00; x00],
       PtrLocalNoncesData {| NoncesMap := Some (collection lnd) |}, None).
Proof.
  intros lnd. split; [by vm_compute|].
  apply (decode_framed_record (order := range_to_list) lnd
           {| NoncesMap := None |} [x16; x02; x00; x00]).
  by vm_compute.
Defined.

(** The encoder looks at the collection only: a nil map and an empty map
    are written alike. *)
Lemma sorted_entries_initialized {order : MapRange} (lnd : LocalNoncesData) :
  sorted_entries lnd = sorted_entries (initialized lnd).
Proof.
  unfold sorted_entries, initialized, collection.
  destruct (NoncesMap lnd) as [m|]; simpl; [done|].
  by rewrite map_size_empty.
Qed.

(** X11: on collections of at most 65535 entries the encoding is
    injective, a nil map and an empty map counting as the same collection:
    two values are written as the same bytes, whatever the order in which
    their maps are enumerated, if and only if they hold the same entries. *)
Theorem encode_injective (o1 o2 : MapRange) (lnd1 lnd2 : LocalNoncesData) :
  N.of_nat (len (NoncesMap lnd1)) < 65536 →
  N.of_nat (len (NoncesMap lnd2)) < 65536 →
  encodeLocalNoncesData (W := Buffer) (order := o1) [] (PtrLocalNoncesData lnd1)
  = encodeLocalNoncesData (W := Buffer) (order := o2) [] (PtrLocalNoncesData lnd2)
  ↔ collection lnd1 = collection lnd2.
Proof.
  intros H1 H2. split.
  - intros Henc.
    pose proof (decode_encoded (order := o1) lnd1 NewLocalNoncesData [] H1)
      as Hd1.
    pose proof (decode_encoded (order := o2) lnd2 NewLocalNoncesData [] H2)
      as Hd2.
    rewrite Henc in Hd1.
    assert (N.of_nat (len (NoncesMap lnd1)) = N.of_nat (len (NoncesMap lnd2)))
      as Hlen.
    { apply (f_equal (λ out, N.of_nat (length out.1))) in Henc.
      rewrite !encode_Buffer in Henc. cbn [fst] in Henc.
      rewrite !length_app, !length_PutUint16, !length_entries_bytes,
        !length_sorted_entries in Henc. lia. }
    rewrite Hlen, Hd2 in Hd1. by simplify_eq.
  - intros Hcoll. unfold encodeLocalNoncesData.
    rewrite (sorted_entries_order o1 o2 lnd1).
    rewrite (sorted_entries_initialized lnd1), (sorted_entries_initialized lnd2).
    unfold initialized. by rewrite Hcoll.
Qed.

Lemma encode_injective_witness :
  let lnd1 := {| NoncesMap := None |} in
  let lnd2 := NewLocalNoncesData in
  N.of_nat (len (NoncesMap lnd1)) < 65536
  ∧ N.of_nat (len (NoncesMap lnd2)) < 65536
  ∧ (encodeLocalNoncesData (W := Buffer) (order := range_to_list) []
       (PtrLocalNoncesData lnd1)
     = encodeLocalNoncesData (W := Buffer) (order := range_reversed) []
         (PtrLocalNoncesData lnd2)
     ↔ collection lnd1 = collection lnd2).
Proof.
  intros lnd1 lnd2. split; [by vm_compute|]. split; [by vm_compute|].
  apply (encode_injective range_to_list range_reversed lnd1 lnd2);
    by vm_compute.
Defined.

Lemma entry_bytes_inj (e1 e2 : LocalNonceEntry) :
  entry_bytes e1 = entry_bytes e2 → e1 = e2.
Proof.
  unfold entry_bytes. intros [Hid Hnonce]%app_inj_1;
    [|by rewrite !length_vec_to_list].
  apply vec_to_list_inj2 in Hid, Hnonce.
  destruct e1, e2; simpl in *. by subst.
Qed.

Lemma entries_bytes_inj (es1 es2 : list LocalNonceEntry) :
  entries_bytes es1 = entries_bytes es2 → es1 = es2.
Proof.
  revert es2. induction es1 as [|e1 es1 IH]; intros [|e2 es2] Heq.
  - done.
  - apply (f_equal length) in Heq.
    rewrite !length_entries_bytes in Heq. simpl in Heq. lia.
  - apply (f_equal length) in Heq.
    rewrite !length_entries_bytes in Heq. simpl in Heq. lia.
  - rewrite !entries_bytes_cons in Heq.
    apply app_inj_1 in Heq as [He Hes]; [|by rewrite !length_entry_bytes].
    f_equal; [by apply entry_bytes_inj | by apply IH].
Qed.

(** Entries in strictly ascending order of id have distinct ids. *)
Lemma Sorted_id_lt_NoDup (es : list LocalNonceEntry) :
  Sorted id_lt es → NoDup (TXID <$> es).
Proof.
  intros Hs%Sorted_StronglySorted; [|apply _].
  induction Hs as [|e es Hs IH He]; simpl; constructor; [|done].
  intros (e' & Heq & Hin)%list_elem_of_fmap.
  rewrite Forall_forall in He. specialize (He e' Hin).
  unfold id_lt in He. rewrite Heq in He. by apply lex_lt_irrefl in He.
Qed.

(** The entries of the map built from entries with distinct ids. *)
Lemma map_to_list_assign_all (es : list LocalNonceEntry) :
  NoDup (TXID <$> es) →
  entry_of <$> map_to_list (assign_all es ∅) ≡ₚ es.
Proof.
  intros Hnd. rewrite assign_all_list_to_map.
  assert (((λ e, (TXID e, Nonce e)) <$> es).*1 = TXID <$> es) as Hfst
    by (by rewrite <- list_fmap_compose).
  rewrite map_to_list_to_map
    by (by rewrite fmap_reverse, Hfst, reverse_Permutation).
  rewrite reverse_Permutation, <- list_fmap_compose.
  rewrite (list_fmap_ext _ id es); [by rewrite list_fmap_id|].
  by intros i [txid nonce] _.
Qed.

(** Encoding the map built from entries with distinct ids. *)
Lemma encode_assigned {order : MapRange} (es : list LocalNonceEntry) :
  NoDup (TXID <$> es) →
  N.of_nat (length es) < 65536 →
  encodeLocalNoncesData (W := Buffer) []
    (PtrLocalNoncesData {| NoncesMap := Some (assign_all es ∅) |})
  = (PutUint16 (N.of_nat (length es))
     ++ entries_bytes (sort_Slice entry_less es), None).
Proof.
  intros Hnd Hlen. rewrite encode_Buffer. cbn [app].
  rewrite sorted_entries_count. cbn [NoncesMap len].
  destruct (assign_all_size es) as [_ Hsize].
  rewrite (proj2 Hsize Hnd). unfold uint16.
  rewrite (N.mod_small _ 65536 Hlen).
  do 3 f_equal.
  apply (Sorted_unique id_lt);
    [apply Sorted_sorted_entries | by apply Sorted_sort_entries |].
  rewrite sorted_entries_perm. unfold collection. cbn [NoncesMap].
  change (default ∅ (Some (assign_all es ∅))) with (assign_all es ∅).
  by rewrite map_to_list_assign_all, sort_Slice_perm.
Qed.

(** X12: decoding and encoding again puts a value in canonical form: a
    well-formed value whose ids are distinct, in whatever order its entries
    come, is decoded into a collection that the encoder writes as the same
    count followed by the same entries sorted by id. *)
Theorem reencode_sorts {order : MapRange} (es : list LocalNonceEntry)
    (lnd : LocalNoncesData) :
  NoDup (TXID <$> es) →
  N.of_nat (length es) < 65536 →
  ∃ m : gmap Hash Musig2Nonce,
    decodeLocalNoncesData
      (PutUint16 (N.of_nat (length es)) ++ entries_bytes es)
      (PtrLocalNoncesData lnd) (2 + N.of_nat (length es) * 98)
    = ([], PtrLocalNoncesData {| NoncesMap := Some m |}, None)
    ∧ encodeLocalNoncesData (W := Buffer) []
        (PtrLocalNoncesData {| NoncesMap := Some m |})
      = (PutUint16 (N.of_nat (length es))
         ++ entries_bytes (sort_Slice entry_less es), None).
Proof.
  intros Hnd Hlen. exists (assign_all es ∅). split.
  - rewrite <- (app_nil_r (entries_bytes es)). by apply decode_entries.
  - by apply encode_assigned.
Qed.

Lemma reencode_sorts_witness :
  let es := [makeTestEntry x03; makeTestEntry x01; makeTestEntry x02] in
  NoDup (TXID <$> es)
  ∧ N.of_nat (length es) < 65536
  ∧ ∃ m : gmap Hash Musig2Nonce,
      decodeLocalNoncesData (PutUint16 3 ++ entries_bytes es)
        (PtrLocalNoncesData NewLocalNoncesData) (2 + 3 * 98)
      = ([], PtrLocalNoncesData {| NoncesMap := Some m |}, None)
      ∧ encodeLocalNoncesData (W := Buffer) (order := range_to_list) []
          (PtrLocalNoncesData {| NoncesMap := Some m |})
        = (PutUint16 3
           ++ entries_bytes
                [makeTestEntry x01; makeTestEntry x02; makeTestEntry x03],
           None).
Proof.
  intros es.
  assert (NoDup (TXID <$> es)) as Hnd.
  { apply (proj1 (proj2 (assign_all_size es))). by vm_compute. }
  split; [exact Hnd|]. split; [by vm_compute|].
  apply (reencode_sorts (order := range_to_list) es NewLocalNoncesData Hnd).
  by vm_compute.
Defined.

(** X13: the canonical values are the fixed points: for a well-formed
    value, decoding it and encoding the result gives back the very same
    bytes if and only if its entries are in strictly ascending order of
    id. *)
Theorem reencode_identity_iff {order : MapRange} (es : list LocalNonceEntry)
    (lnd : LocalNoncesData) :
  N.of_nat (length es) < 65536 →
  let value := PutUint16 (N.of_nat (length es)) ++ entries_bytes es in
  encodeLocalNoncesData (W := Buffer) []
    (decodeLocalNoncesData value (PtrLocalNoncesData lnd)
       (2 + N.of_nat (length es) * 98)).1.2
  = (value, None)
  ↔ Sorted id_lt es.
Proof.
  intros Hlen value. unfold value.
  rewrite <- (app_nil_r (entries_bytes es)) at 1.
  rewrite decode_entries by done. cbn [fst snd].
  split.
  - intros Henc.
    assert (size (assign_all es ∅) = length es) as Hsize.
    { apply (f_equal (λ out, length out.1)) in Henc.
      rewrite encode_Buffer in Henc. cbn [fst] in Henc.
      rewrite !length_app, !length_PutUint16, !length_entries_bytes,
        length_sorted_entries in Henc.
      cbn [NoncesMap len length] in Henc. lia. }
    apply assign_all_size in Hsize.
    rewrite encode_assigned in Henc by done.
    injection Henc as Henc. apply entries_bytes_inj in Henc.
    rewrite <- Henc. by apply Sorted_sort_entries.
  - intros Hsorted.
    rewrite encode_assigned by (by try apply Sorted_id_lt_NoDup).
    do 3 f_equal. apply (Sorted_unique id_lt); [|done|apply sort_Slice_perm].
    by apply Sorted_sort_entries, Sorted_id_lt_NoDup.
Qed.

Lemma reencode_identity_iff_witness :
  let es := [makeTestEntry x02; makeTestEntry x01] in
  let value := PutUint16 (N.of_nat (length es)) ++ entries_bytes es in
  N.of_nat (length es) < 65536
  ∧ (encodeLocalNoncesData (W := Buffer) (order := range_to_list) []
       (decodeLocalNoncesData value (PtrLocalNoncesData NewLocalNoncesData)
          (2 + N.of_nat (length es) * 98)).1.2
     = (value, None)
     ↔ Sorted id_lt es).
Proof.
  intros es value. split; [by vm_compute|].
  apply (reencode_identity_iff (order := range_to_list) es NewLocalNoncesData).
  by vm_compute.
Defined.

(** ** The round-trip test on every input *)

(** X14: the round-trip test passes on every input of at most 65535
    entries, in whatever order the map is enumerated; the maps it compares
    are deeply equal unless the input map is nil, in which case the decoded
    map is empty and the test passes by its nil-or-empty rule. *)
Theorem roundtrip_test_passes {order : MapRange} (inputData : LocalNoncesData) :
  N.of_nat (len (NoncesMap inputData)) < 65536 →
  roundtrip_test inputData = Pass
  ∧ ∃ b : list byte,
      encodeLocalNoncesData (W := Buffer) [] (PtrLocalNoncesData inputData)
      = (b, None)
      ∧ ∀ decodedData : LocalNoncesData,
          (decodeLocalNoncesData b (PtrLocalNoncesData NewLocalNoncesData)
             (uint64 (N.of_nat (length b)))).1.2
          = PtrLocalNoncesData decodedData →
          (NoncesMap inputData = NoncesMap decodedData
           ↔ NoncesMap inputData ≠ None).
Proof.
  intros Hcount.
  pose proof (decode_encoded inputData NewLocalNoncesData [] Hcount) as Hdec.
  rewrite app_nil_r in Hdec.
  assert (uint64 (N.of_nat (length
            (encodeLocalNoncesData (W := Buffer) []
               (PtrLocalNoncesData inputData)).1))
          = 2 + N.of_nat (len (NoncesMap inputData)) * 98) as Hlen.
  { rewrite encode_Buffer. cbn [fst].
    rewrite !length_app, length_PutUint16, length_entries_bytes,
      length_sorted_entries.
    cbn [length]. unfold uint64. rewrite N.mod_small; lia. }
  unfold roundtrip_test.
  destruct (encodeLocalNoncesData (W := Buffer) []
              (PtrLocalNoncesData inputData)) as [b err] eqn:Henc.
  assert (err = None) as ->
    by (rewrite encode_Buffer in Henc; by simplify_eq).
  cbn [fst] in Hdec, Hlen. rewrite Hlen, Hdec. cbn [NoncesMap fst snd].
  unfold collection.
  destruct (NoncesMap inputData) as [m|] eqn:Hmap; cbn [default].
  - rewrite decide_True by done. split; [done|].
    exists b. split; [done|]. intros d. rewrite Hlen, Hdec. cbn [fst snd].
    intros [= <-]. cbn [NoncesMap]. unfold collection. by rewrite Hmap.
  - rewrite decide_False by done.
    rewrite decide_True by (split; right; [done | apply map_size_empty]).
    split; [done|].
    exists b. split; [done|]. intros d. rewrite Hlen, Hdec. cbn [fst snd].
    intros [= <-]. cbn [NoncesMap]. by split.
Qed.

Lemma roundtrip_test_passes_witness :
  let inputData := {| NoncesMap := None |} in
  N.of_nat (len (NoncesMap inputData)) < 65536
  ∧ roundtrip_test (order := range_to_list) inputData = Pass
  ∧ ∃ b : list byte,
      encodeLocalNoncesData (W := Buffer) (order := range_to_list) []
        (PtrLocalNoncesData inputData)
      = (b, None)
      ∧ ∀ decodedData : LocalNoncesData,
          (decodeLocalNoncesData b (PtrLocalNoncesData NewLocalNoncesData)
             (uint64 (N.of_nat (length b)))).1.2
          = PtrLocalNoncesData decodedData →
          (NoncesMap inputData = NoncesMap decodedData
           ↔ NoncesMap inputData ≠ None).
Proof.
  intros inputData. split; [by vm_compute|].
  apply (roundtrip_test_passes (order := range_to_list) inputData).
  by vm_compute.
Defined.
